(** * Host-side codec of the neural unit: drives, memory, personality

    A shallow embedding of [firmware/instinct.py], [firmware/memory.py] and
    [firmware/personality.py].

    Modelling conventions.
    - Python [bytes] are lists of [Byte.byte]; Python [str] are lists of code
      points ([N]); Python [int] is [Z].
    - A Python [float] is a binary64 value and is modelled by the rational
      it denotes ([Q]); infinities and NaN are outside the model.  Where a
      float result decides what goes on the wire (the encoders), every
      operation is the exact one followed by [fl], rounding to the nearest
      binary64 value with ties to even; comparisons are exact and [int(x)]
      truncates toward zero.  In the decoders the quotient by 65535 and the
      rounding to 4 decimals are kept exact: the float Python returns is that
      rational rounded to binary64, and what is stated about decoded values
      (range, distance to the encoded value, dependence on the reply bytes)
      is stated about the exact quotient.
    - Exceptions are an explicit [outcome]; methods run in a state-and-exception
      monad over the [World] (the neural unit's link, the host cache, the
      clock).  State changes made before an exception is raised persist, as in
      Python.
    - The neural unit is scripted: it holds the replies it will give, one per
      [send_cmd], and logs every command put on the wire. *)

From Stdlib Require Import String Ascii.
From Stdlib Require Import ZArith QArith Qround Qabs Qpower Lqa List Bool Lia.
From Stdlib Require Import Floats.
From Stdlib Require Strings.Byte.
Import ListNotations.

Local Open Scope Z_scope.

(** ** Python values *)

Definition byte : Set := Init.Byte.byte.
Definition bytes := list byte.
Definition str := list N.

Definition str_of_string (s : string) : str :=
  map N_of_ascii (list_ascii_of_string s).

Definition str_eq_dec : forall a b : str, {a = b} + {a <> b} :=
  list_eq_dec N.eq_dec.

Definition byte_val (b : byte) : Z := Z.of_N (Byte.to_N b).

Definition byte_of_N (n : N) : byte :=
  match Byte.of_N (n mod 256) with
  | Some b => b
  | None => Byte.x00
  end.

Definition byte_of_Z (z : Z) : byte := byte_of_N (Z.to_N (z mod 256)).

Inductive exn : Set :=
| ValueError
| OverflowError
| UnicodeEncodeError
| UnicodeDecodeError
| TransportError.

Inductive outcome (A : Type) : Type :=
| Ok (a : A)
| Raise (e : exn).
Arguments Ok {A} a.
Arguments Raise {A} e.

Definition is_ok {A} (o : outcome A) : bool :=
  match o with Ok _ => true | Raise _ => false end.

(** *** bytes and str primitives *)

(** [b[i:j]] for [0 <= i <= j]. *)
Definition slice {A} (l : list A) (i j : nat) : list A :=
  firstn (j - i) (skipn i l).

(** [b.ljust(width, fill)] *)
Definition ljust (width : nat) (fill : byte) (b : bytes) : bytes :=
  b ++ repeat fill (width - length b).

Definition is_nul (b : byte) : bool := Byte.eqb b Byte.x00.

(** [b.rstrip(b"\x00")] *)
Fixpoint rstrip (b : bytes) : bytes :=
  match b with
  | [] => []
  | x :: t =>
      match rstrip t with
      | [] => if is_nul x then [] else [x]
      | t' => x :: t'
      end
  end.

Definition is_ascii (s : str) : bool := forallb (fun c => (c <? 128)%N) s.

(** [s.encode("ascii")] *)
Definition encode_ascii (s : str) : outcome bytes :=
  if is_ascii s
  then Ok (map byte_of_N s)
  else Raise UnicodeEncodeError.

Definition is_ascii_byte (b : byte) : bool := (Byte.to_N b <? 128)%N.

(** [b.decode("ascii")] *)
Definition decode_ascii (b : bytes) : outcome str :=
  if forallb is_ascii_byte b
  then Ok (map Byte.to_N b)
  else Raise UnicodeDecodeError.

Definition REPLACEMENT_CHARACTER : N := 0xFFFD.

(** The surrogate code points U+D800..U+DFFF: a str may hold them, UTF-8
    cannot encode them. *)
Definition is_surrogate (c : N) : bool := ((0xD800 <=? c) && (c <=? 0xDFFF))%N.

(** One character of [s.encode()] (UTF-8); a str holds code points up to
    U+10FFFF. *)
Definition utf8_char (c : N) : outcome bytes :=
  if (c <? 0x80)%N then Ok [byte_of_N c]
  else if (c <? 0x800)%N then
    Ok [byte_of_N (0xC0 + c / 64); byte_of_N (0x80 + c mod 64)]
  else if is_surrogate c then Raise UnicodeEncodeError
  else if (c <? 0x10000)%N then
    Ok [byte_of_N (0xE0 + c / 4096); byte_of_N (0x80 + (c / 64) mod 64);
        byte_of_N (0x80 + c mod 64)]
  else
    Ok [byte_of_N (0xF0 + c / 262144); byte_of_N (0x80 + (c / 4096) mod 64);
        byte_of_N (0x80 + (c / 64) mod 64); byte_of_N (0x80 + c mod 64)].

(** [s.encode()] *)
Fixpoint utf8_encode (s : str) : outcome bytes :=
  match s with
  | [] => Ok []
  | c :: t =>
      match utf8_char c with
      | Raise e => Raise e
      | Ok b =>
          match utf8_encode t with
          | Raise e => Raise e
          | Ok r => Ok (b ++ r)
          end
      end
  end.

(** [b.decode("ascii", errors="replace")] *)
Definition decode_ascii_replace (b : bytes) : str :=
  map (fun x => if is_ascii_byte x then Byte.to_N x else REPLACEMENT_CHARACTER) b.

(** [int.from_bytes(b, "big")] *)
Definition from_bytes (b : bytes) : Z :=
  fold_left (fun acc x => acc * 256 + byte_val x) b 0.

Fixpoint be_digits (n : nat) (x : Z) : bytes :=
  match n with
  | O => []
  | S k => be_digits k (x / 256) ++ [byte_of_Z x]
  end.

(** [x.to_bytes(n, "big")] *)
Definition to_bytes (x : Z) (n : nat) : outcome bytes :=
  if (x <? 0) || (256 ^ Z.of_nat n <=? x)
  then Raise OverflowError
  else Ok (be_digits n x).

(** [range(start, stop, step)] for [step > 0]. *)
Definition py_range (start stop step : nat) : list nat :=
  map (fun k => (start + k * step)%nat)
      (seq 0 ((stop - start + (step - 1)) / step)%nat).

(** *** float primitives *)

(** [int(x)]: truncation toward zero. *)
Definition py_int (x : Q) : Z := Z.quot (Qnum x) (Zpos (Qden x)).

(** [round(x)]: nearest integer, ties to even. *)
Definition py_round (x : Q) : Z :=
  let f := Qfloor x in
  match ((x - inject_Z f) ?= (1 # 2))%Q with
  | Lt => f
  | Gt => f + 1
  | Eq => if Z.even f then f else f + 1
  end.

(** The binary exponent of a positive rational: [2^e <= x < 2^(e+1)]. *)
Definition ilog2 (x : Q) : Z :=
  let c := Z.log2 (Qnum x) - Z.log2 (Zpos (Qden x)) in
  if Qle_bool (2 ^ c) x then c else c - 1.

(** The exponent that fixes the spacing of binary64 values around [x]:
    subnormal below [2^-1022]. *)
Definition binade (x : Q) : Z := Z.max (ilog2 x) (-1022).

(** The spacing of binary64 values around a positive [x] (53-bit significand). *)
Definition spacing (x : Q) : Q := (2 ^ (binade x - 52))%Q.

Definition fl_pos (x : Q) : Q :=
  (inject_Z (py_round (x / spacing x)) * spacing x)%Q.

(** Rounding to the nearest binary64 value, ties to even. *)
Definition fl (x : Q) : Q :=
  match (x ?= 0)%Q with
  | Eq => 0%Q
  | Gt => fl_pos x
  | Lt => (- fl_pos (- x))%Q
  end.

(** [x + y], [x * y] and [x / y] on floats. *)
Definition fadd (x y : Q) : Q := fl (x + y).
Definition fmul (x y : Q) : Q := fl (x * y).
Definition fdiv (x y : Q) : Q := fl (x / y).

(** [int(v * 65535)]: the 16-bit value the setters send for [v]. *)
Definition quantise (v : Q) : Z := py_int (fmul v 65535).

(** The rational a kernel binary64 value denotes (0 for infinities and NaN),
    used to compare [fl] with the machine's arithmetic. *)
Definition Q_of_float (f : float) : Q :=
  match Prim2SF f with
  | S754_finite s m e =>
      ((if s then -1 else 1) * inject_Z (Zpos m) * 2 ^ e)%Q
  | _ => 0%Q
  end.

(** [round(x, 4)] *)
Definition round4 (x : Q) : Q := (inject_Z (py_round (x * 10000)) / 10000)%Q.

(** [0.0 <= x <= 1.0] *)
Definition in_unit_range (x : Q) : bool := Qle_bool 0 x && Qle_bool x 1.

(** [int.from_bytes(raw[:2], "big") / 65535.0] *)
Definition decode_u16 (raw : bytes) : Q :=
  (inject_Z (from_bytes (slice raw 0 2)) / 65535)%Q.

(** ** dict: insertion-ordered, one entry per key *)

Definition dict := list (str * Q).

Fixpoint dict_set (d : dict) (k : str) (v : Q) : dict :=
  match d with
  | [] => [(k, v)]
  | (k', v') :: t =>
      if str_eq_dec k' k then (k', v) :: t else (k', v') :: dict_set t k v
  end.

Definition dict_update (d other : dict) : dict :=
  fold_left (fun acc kv => dict_set acc (fst kv) (snd kv)) other d.

Fixpoint dict_get (d : dict) (k : str) : option Q :=
  match d with
  | [] => None
  | (k', v') :: t => if str_eq_dec k' k then Some v' else dict_get t k
  end.

(** ** The world: neural unit link, host cache, clock *)

Record NeuralUnit : Type := {
  sent : list (Z * bytes);
  replies : list bytes
}.

Record World : Type := {
  _unit : NeuralUnit;
  _cache : dict;
  time_time : Q
}.

Definition M (A : Type) : Type := World -> outcome A * World.

Definition ret {A} (a : A) : M A := fun w => (Ok a, w).
Definition raise {A} (e : exn) : M A := fun w => (Raise e, w).
Definition bind {A B} (m : M A) (k : A -> M B) : M B :=
  fun w =>
    match m w with
    | (Ok a, w') => k a w'
    | (Raise e, w') => (Raise e, w')
    end.
Definition lift {A} (o : outcome A) : M A := fun w => (o, w).

Notation "x <- m ;; k" := (bind m (fun x => k))
  (at level 61, m at next level, right associativity).

(** [self._unit.send_cmd(cmd, payload)]: the command goes on the wire; the
    unit answers with its next scripted reply, or the link fails. *)
Definition send_cmd (cmd : Z) (payload : bytes) : M bytes :=
  fun w =>
    let u := _unit w in
    let wire := sent u ++ [(cmd, payload)] in
    match replies u with
    | [] =>
        (Raise TransportError,
         {| _unit := {| sent := wire; replies := [] |};
            _cache := _cache w; time_time := time_time w |})
    | r :: rs =>
        (Ok r,
         {| _unit := {| sent := wire; replies := rs |};
            _cache := _cache w; time_time := time_time w |})
    end.

(** [self._cache[name] = val] *)
Definition cache_set (name : str) (val : Q) : M unit :=
  fun w =>
    (Ok tt,
     {| _unit := _unit w; _cache := dict_set (_cache w) name val;
        time_time := time_time w |}).

(** [self._cache.update(result)] *)
Definition cache_update (result : dict) : M unit :=
  fun w =>
    (Ok tt,
     {| _unit := _unit w; _cache := dict_update (_cache w) result;
        time_time := time_time w |}).

(** [time.time()] *)
Definition now : M Q := fun w => (Ok (time_time w), w).

(** [name.encode("ascii").ljust(width, b"\x00")[:width]] *)
Definition name_field (width : nat) (name : str) : outcome bytes :=
  match encode_ascii name with
  | Ok b => Ok (slice (ljust width Byte.x00 b) 0 width)
  | Raise e => Raise e
  end.

(** ** firmware/instinct.py *)

Module InstinctModel.

Definition CMD_SET_DRIVE : Z := 0x20.
Definition CMD_GET_DRIVE : Z := 0x21.
Definition CMD_LIST_DRIVES : Z := 0x22.

(** The weights are float literals: each denotes the binary64 value nearest
    to the decimal. *)
Definition DEFAULT_DRIVES : dict :=
  [ (str_of_string "curiosity", fl 0.7);
    (str_of_string "social", fl 0.85);
    (str_of_string "rest", fl 0.4);
    (str_of_string "hunger", fl 0.5);
    (str_of_string "play", fl 0.75);
    (str_of_string "self_preserve", fl 0.9) ].

Definition set_drive (name : str) (weight : Q) : M unit :=
  if negb (in_unit_range weight) then raise ValueError
  else
    name_bytes <- lift (name_field 16 name) ;;
    w_bytes <- lift (to_bytes (py_int (fmul weight 65535)) 2) ;;
    _ <- send_cmd CMD_SET_DRIVE (name_bytes ++ w_bytes) ;;
    cache_set name weight.

Definition get_drive (name : str) : M Q :=
  name_bytes <- lift (name_field 16 name) ;;
  raw <- send_cmd CMD_GET_DRIVE name_bytes ;;
  let val := decode_u16 raw in
  _ <- cache_set name val ;;
  ret val.

(** The body of the [for i in range(0, len(raw), 18)] loop, with its [break]. *)
Fixpoint list_drives_loop (raw : bytes) (idx : list nat) (result : dict)
  : outcome dict :=
  match idx with
  | [] => Ok result
  | i :: rest =>
      let chunk := slice raw i (i + 18) in
      if (length chunk <? 18)%nat then Ok result
      else
        match decode_ascii (rstrip (slice chunk 0 16)) with
        | Raise e => Raise e
        | Ok name =>
            let val := (inject_Z (from_bytes (slice chunk 16 18)) / 65535)%Q in
            list_drives_loop raw rest (dict_set result name val)
        end
  end.

Definition list_drives : M dict :=
  raw <- send_cmd CMD_LIST_DRIVES [] ;;
  result <- lift (list_drives_loop raw (py_range 0 (length raw) 18) []) ;;
  _ <- cache_update result ;;
  ret result.

Fixpoint load_defaults_loop (items : dict) : M unit :=
  match items with
  | [] => ret tt
  | (name, weight) :: rest =>
      _ <- set_drive name weight ;;
      load_defaults_loop rest
  end.

Definition load_defaults : M unit := load_defaults_loop DEFAULT_DRIVES.

End InstinctModel.

(** ** firmware/memory.py *)

Module MemoryStore.

Definition CMD_ENCODE : Z := 0x30.
Definition CMD_RECALL : Z := 0x31.
Definition CMD_TRUST : Z := 0x32.
Definition CMD_MEM_WIPE : Z := 0x3F.

Definition EVENT_NAMES : list str :=
  map str_of_string
    [ "pet_detected"; "face_seen"; "object_seen"; "touch_head";
      "touch_back"; "touch_chin"; "touch_paw"; "tail_grab";
      "loud_noise"; "darkness"; "picked_up"; "put_down";
      "fed"; "play_initiated"; "ignored" ]%string.

(** [event in EVENT_NAMES] *)
Definition known_event (event : str) : bool :=
  existsb (fun e => if str_eq_dec e event then true else false) EVENT_NAMES.

(** One dict of the list [recall] returns. *)
Record Event : Type := {
  event : str;
  valence : Q;
  ts : Z
}.

(** [timestamp or time.time()]: [None] and a zero timestamp are both falsy. *)
Definition timestamp_or_now (timestamp : option Q) : M Q :=
  match timestamp with
  | None => now
  | Some t => if Qeq_bool t 0 then now else ret t
  end.

(** The body of the [for i in range(0, len(raw), record_size)] loop. *)
Fixpoint recall_loop (raw : bytes) (idx : list nat) (events : list Event)
  : list Event :=
  match idx with
  | [] => events
  | i :: rest =>
      let chunk := slice raw i (i + 38) in
      if (length chunk <? 38)%nat then events
      else
        let name := decode_ascii_replace (rstrip (slice chunk 0 24)) in
        let valence :=
          (inject_Z (from_bytes (slice chunk 32 34)) / 65535 * 2 - 1)%Q in
        let ts := from_bytes (slice chunk 34 38) in
        recall_loop raw rest
          (events ++ [{| event := name; valence := round4 valence; ts := ts |}])
  end.

Definition recall (limit : Z) : M (list Event) :=
  payload <- lift (to_bytes limit 2) ;;
  raw <- send_cmd CMD_RECALL payload ;;
  ret (recall_loop raw (py_range 0 (length raw) 38) []).

Definition wipe : M unit :=
  _ <- send_cmd CMD_MEM_WIPE [Byte.xde; Byte.xad] ;;
  ret tt.

Section Hashing.

(** [hashlib.sha256(m).digest()] comes from the Python library; the store
    only relies on the digest being 32 bytes. *)
Variable sha256 : bytes -> bytes.

Definition _hash_uid (uid : str) : outcome bytes :=
  match utf8_encode uid with
  | Ok m => Ok (slice (sha256 m) 0 8)
  | Raise e => Raise e
  end.

Definition encode (event uid : str) (valence : Q) (timestamp : option Q)
  : M unit :=
  if negb (known_event event) then raise ValueError
  else
    t <- timestamp_or_now timestamp ;;
    let ts := py_int t in
    ev_bytes <- lift (name_field 24 event) ;;
    uid_hash <- lift (_hash_uid uid) ;;
    val_i16 <-
      lift (to_bytes (py_int (fmul (fdiv (fadd valence 1) 2) 65535)) 2) ;;
    ts_bytes <- lift (to_bytes ts 4) ;;
    let payload := ev_bytes ++ uid_hash ++ val_i16 ++ ts_bytes in
    _ <- send_cmd CMD_ENCODE payload ;;
    ret tt.

Definition get_trust (uid : str) : M Q :=
  uid_hash <- lift (_hash_uid uid) ;;
  raw <- send_cmd CMD_TRUST uid_hash ;;
  if (length raw <? 2)%nat then ret 0%Q
  else ret (decode_u16 raw).

End Hashing.

End MemoryStore.

(** ** firmware/personality.py *)

Module PersonalityEngine.

Definition CMD_TRAIT_GET : Z := 0x40.
Definition CMD_TRAIT_SET : Z := 0x41.
Definition CMD_TRAIT_SNAPSHOT : Z := 0x42.
Definition CMD_TRAIT_RESET : Z := 0x4F.

Definition get (trait : str) : M Q :=
  t <- lift (name_field 16 trait) ;;
  raw <- send_cmd CMD_TRAIT_GET t ;;
  ret (decode_u16 raw).

Definition set (trait : str) (value : Q) : M unit :=
  if negb (in_unit_range value) then raise ValueError
  else
    t <- lift (name_field 16 trait) ;;
    v <- lift (to_bytes (py_int (fmul value 65535)) 2) ;;
    _ <- send_cmd CMD_TRAIT_SET (t ++ v) ;;
    ret tt.

(** The body of the [for i in range(0, len(raw), 18)] loop, with its [break]. *)
Fixpoint snapshot_loop (raw : bytes) (idx : list nat) (result : dict)
  : outcome dict :=
  match idx with
  | [] => Ok result
  | i :: rest =>
      let chunk := slice raw i (i + 18) in
      if (length chunk <? 18)%nat then Ok result
      else
        match decode_ascii (rstrip (slice chunk 0 16)) with
        | Raise e => Raise e
        | Ok name =>
            let val := (inject_Z (from_bytes (slice chunk 16 18)) / 65535)%Q in
            snapshot_loop raw rest (dict_set result name (round4 val))
        end
  end.

Definition snapshot : M dict :=
  raw <- send_cmd CMD_TRAIT_SNAPSHOT [] ;;
  lift (snapshot_loop raw (py_range 0 (length raw) 18) []).

Definition reset : M unit :=
  _ <- send_cmd CMD_TRAIT_RESET [Byte.xde; Byte.xad] ;;
  ret tt.

(** The [for trait, value in data.items()] loop of [load], on the mapping read
    from the snapshot file (reading and parsing the file is left out). *)
Fixpoint load_loop (items : dict) : M unit :=
  match items with
  | [] => ret tt
  | (trait, value) :: rest =>
      _ <- set trait value ;;
      load_loop rest
  end.

End PersonalityEngine.

(** * Specification-side definitions *)

(** The [k]-th chunk of [size] bytes of a reply, and the full ones in order. *)
Definition chunk_at (size : nat) (raw : bytes) (k : nat) : bytes :=
  slice raw (k * size) (k * size + size).

Definition full_chunks (size : nat) (raw : bytes) : list bytes :=
  map (chunk_at size raw) (seq 0 (length raw / size)).

(** The two named-value loops differ only in what they do with the value. *)
Fixpoint named_value_loop (post : Q -> Q) (raw : bytes) (idx : list nat)
  (result : dict) : outcome dict :=
  match idx with
  | [] => Ok result
  | i :: rest =>
      let chunk := slice raw i (i + 18) in
      if (length chunk <? 18)%nat then Ok result
      else
        match decode_ascii (rstrip (slice chunk 0 16)) with
        | Raise e => Raise e
        | Ok name =>
            let val := (inject_Z (from_bytes (slice chunk 16 18)) / 65535)%Q in
            named_value_loop post raw rest (dict_set result name (post val))
        end
  end.

(** One 18-byte record, decoded. *)
Definition named_value (post : Q -> Q) (chunk : bytes) : str * Q :=
  (map Byte.to_N (rstrip (slice chunk 0 16)),
   post (inject_Z (from_bytes (slice chunk 16 18)) / 65535)%Q).

(** Decoding a list of records into a mapping, stopping at the first name that
    is not ASCII. *)
Fixpoint decode_all (post : Q -> Q) (chunks : list bytes) (result : dict)
  : outcome dict :=
  match chunks with
  | [] => Ok result
  | c :: cs =>
      if forallb is_ascii_byte (slice c 0 16)
      then decode_all post cs
             (dict_set result (fst (named_value post c)) (snd (named_value post c)))
      else Raise UnicodeDecodeError
  end.

(** One 38-byte record, decoded. *)
Definition episodic (chunk : bytes) : MemoryStore.Event :=
  {| MemoryStore.event := decode_ascii_replace (rstrip (slice chunk 0 24));
     MemoryStore.valence :=
       round4 (inject_Z (from_bytes (slice chunk 32 34)) / 65535 * 2 - 1)%Q;
     MemoryStore.ts := from_bytes (slice chunk 34 38) |}.

(** A world whose unit has sent nothing yet and will answer with [rs]. *)
Definition fresh (rs : list bytes) : World :=
  {| _unit := {| sent := []; replies := rs |};
     _cache := [];
     time_time := 1700000000 |}.

(** The 16-bit value [encode] computes for a valence:
    [int((valence + 1.0) / 2.0 * 65535)]. *)
Definition valence_code (valence : Q) : Z :=
  py_int (fmul (fdiv (fadd valence 1) 2) 65535).

(** The timestamp [encode] works with: [timestamp or time.time()], evaluated. *)
Definition effective (timestamp : option Q) (w : World) : Q :=
  match timestamp with
  | None => time_time w
  | Some t => if Qeq_bool t 0 then time_time w else t
  end.

(** Closed examples need some 32-byte digest; no property depends on its
    value.  [example_digest] pads or cuts the message to 32 bytes. *)
Definition example_digest (m : bytes) : bytes :=
  firstn 32 (m ++ repeat Byte.x00 32).

(** What every stored record satisfies. *)
Definition wellformed_entry (kv : str * Q) : Prop :=
  is_ascii (fst kv) = true /\
  (length (fst kv) <= 16)%nat /\
  last (fst kv) 1%N <> 0%N /\
  (0 <= snd kv /\ snd kv <= 1)%Q.

(** A mapping with [f] applied to every value. *)
Definition map_values (f : Q -> Q) (d : dict) : dict :=
  map (fun kv => (fst kv, f (snd kv))) d.

(** The 18-byte record [set_drive] and [set] build for an ASCII name of at
    most 16 characters and a value in [0, 1]. *)
Definition named_record (name : str) (v : Q) : bytes :=
  (map byte_of_N name ++ repeat Byte.x00 (16 - length name)) ++
  be_digits 2 (quantise v).

(** A name the field can carry unchanged. *)
Definition plain_name (n : str) : Prop :=
  is_ascii n = true /\ (length n <= 16)%nat /\ last n 1%N <> 0%N.

(** What [list_drives] reads back for a value written by [set_drive]. *)
Definition quantised (kv : str * Q) : str * Q :=
  (fst kv, (inject_Z (quantise (snd kv)) / 65535)%Q).

(** An entry [set_drive] and [set] accept, whose name fits the field. *)
Definition valid_item (kv : str * Q) : Prop :=
  is_ascii (fst kv) = true /\ (length (fst kv) <= 16)%nat /\
  (0 <= snd kv /\ snd kv <= 1)%Q.

(** The command [set_drive], and the command [set], send for an entry. *)
Definition drive_cmd (kv : str * Q) : Z * bytes :=
  (InstinctModel.CMD_SET_DRIVE, named_record (fst kv) (snd kv)).

Definition trait_cmd (kv : str * Q) : Z * bytes :=
  (PersonalityEngine.CMD_TRAIT_SET, named_record (fst kv) (snd kv)).

(** A world with its unit and cache replaced. *)
Definition with_link (w : World) (wire_log : list (Z * bytes))
  (pending : list bytes) (cache : dict) : World :=
  {| _unit := {| sent := wire_log; replies := pending |};
     _cache := cache;
     time_time := time_time w |}.

(** The 24-byte field of an event name. *)
Definition event_field (event : str) : bytes :=
  map byte_of_N event ++ repeat Byte.x00 (24 - length event).

(** What every event returned by [recall] satisfies. *)
Definition wellformed_event (e : MemoryStore.Event) : Prop :=
  (length (MemoryStore.event e) <= 24)%nat /\
  last (MemoryStore.event e) 1%N <> 0%N /\
  0 <= MemoryStore.ts e < 2 ^ 32 /\
  (inject_Z (-1) <= MemoryStore.valence e /\
   MemoryStore.valence e <= inject_Z 1)%Q.

(** The commands a run put on the wire. *)
Definition wire {A} (r : outcome A * World) : list (Z * bytes) :=
  sent (_unit (snd r)).


(** * Properties *)

(** ** Bytes and integers *)

Lemma byte_val_range (b : byte) : 0 <= byte_val b < 256.
Proof.
  unfold byte_val. pose proof (Byte.to_N_bounded b). lia.
Qed.

Lemma byte_of_N_val (n : N) : (n < 256)%N -> Byte.to_N (byte_of_N n) = n.
Proof.
  intros Hn. unfold byte_of_N. rewrite N.mod_small by exact Hn.
  destruct (Byte.of_N n) as [b|] eqn:E.
  - now apply Byte.to_of_N.
  - apply Byte.of_N_None_iff in E. lia.
Qed.

Lemma byte_val_of_Z (z : Z) : byte_val (byte_of_Z z) = z mod 256.
Proof.
  unfold byte_val, byte_of_Z.
  pose proof (Z.mod_pos_bound z 256 eq_refl) as Hr.
  rewrite byte_of_N_val by lia. lia.
Qed.

Lemma from_bytes_snoc (l : bytes) (x : byte) :
  from_bytes (l ++ [x]) = from_bytes l * 256 + byte_val x.
Proof. unfold from_bytes. now rewrite fold_left_app. Qed.

Lemma length_be_digits (n : nat) (x : Z) : length (be_digits n x) = n.
Proof.
  revert x. induction n as [|n IH]; intros x; simpl; [reflexivity|].
  rewrite length_app, IH. simpl. lia.
Qed.

Lemma from_bytes_be_digits (n : nat) (x : Z) :
  from_bytes (be_digits n x) = x mod 256 ^ Z.of_nat n.
Proof.
  revert x. induction n as [|n IH]; intros x.
  - simpl. now rewrite Z.mod_1_r.
  - cbn [be_digits]. rewrite from_bytes_snoc, IH, byte_val_of_Z.
    rewrite Nat2Z.inj_succ, Z.pow_succ_r by lia.
    rewrite Z.rem_mul_r by lia. lia.
Qed.

Lemma to_bytes_ok (x : Z) (n : nat) :
  0 <= x < 256 ^ Z.of_nat n -> to_bytes x n = Ok (be_digits n x).
Proof.
  intros [Hlo Hhi]. unfold to_bytes.
  destruct (Z.ltb_spec x 0); [lia|].
  destruct (Z.leb_spec (256 ^ Z.of_nat n) x); [lia|]. reflexivity.
Qed.

Lemma to_bytes_overflow (x : Z) (n : nat) :
  x < 0 \/ 256 ^ Z.of_nat n <= x -> to_bytes x n = Raise OverflowError.
Proof.
  intros H. unfold to_bytes.
  destruct (Z.ltb_spec x 0); [reflexivity|].
  destruct (Z.leb_spec (256 ^ Z.of_nat n) x); [reflexivity|lia].
Qed.

Lemma from_bytes_to_bytes (x : Z) (n : nat) :
  0 <= x < 256 ^ Z.of_nat n -> from_bytes (be_digits n x) = x.
Proof.
  intros H. rewrite from_bytes_be_digits. now apply Z.mod_small.
Qed.

(** ** Slices *)

Lemma slice_0 {A} (l : list A) (n : nat) : slice l 0 n = firstn n l.
Proof. unfold slice. now rewrite Nat.sub_0_r. Qed.

Lemma slice_all {A} (l : list A) (n : nat) :
  (length l <= n)%nat -> slice l 0 n = l.
Proof. intros H. rewrite slice_0. now apply firstn_all2. Qed.

Lemma length_slice {A} (l : list A) (i s : nat) :
  length (slice l i (i + s)) = Nat.min s (length l - i).
Proof.
  unfold slice. rewrite length_firstn, length_skipn.
  replace (i + s - i)%nat with s by lia. reflexivity.
Qed.

(** ** Truncation and the unit range *)

Lemma py_int_nonneg (x : Q) : (0 <= x)%Q -> py_int x = Qfloor x.
Proof.
  destruct x as [n d]. unfold Qle, py_int, Qfloor. simpl. intros H.
  apply Z.quot_div_nonneg; lia.
Qed.

Lemma in_unit_range_true (x : Q) :
  in_unit_range x = true <-> (0 <= x /\ x <= 1)%Q.
Proof.
  unfold in_unit_range. rewrite andb_true_iff, !Qle_bool_iff. tauto.
Qed.

Lemma in_unit_range_false (x : Q) :
  in_unit_range x = false <-> (x < 0 \/ 1 < x)%Q.
Proof.
  split.
  - intros H. destruct (Qlt_le_dec x 0) as [|H0]; [now left|].
    destruct (Qlt_le_dec 1 x) as [|H1]; [now right|].
    assert (in_unit_range x = true) by (apply in_unit_range_true; tauto).
    congruence.
  - intros H. destruct (in_unit_range x) eqn:E; [|reflexivity].
    apply in_unit_range_true in E. lra.
Qed.

Lemma Qdiv_65535 (x : Q) : (x / 65535 == x * (1 # 65535))%Q.
Proof. reflexivity. Qed.

(** * Binary64 rounding *)

Local Open Scope Q_scope.

(** ** Powers of two *)

Lemma pow2_pos (e : Z) : 0 < 2 ^ e.
Proof. apply Qpower_0_lt. reflexivity. Qed.

Lemma pow2_lt (e1 e2 : Z) : (e1 < e2)%Z -> 2 ^ e1 < 2 ^ e2.
Proof. intros H. apply Qpower_lt_compat_l; [exact H|reflexivity]. Qed.

Lemma pow2_le (e1 e2 : Z) : (e1 <= e2)%Z -> 2 ^ e1 <= 2 ^ e2.
Proof. intros H. apply Qpower_le_compat_l; [exact H|discriminate]. Qed.

Lemma pow2_lt_inv (e1 e2 : Z) : 2 ^ e1 < 2 ^ e2 -> (e1 < e2)%Z.
Proof. intros H. apply (Qpower_lt_compat_l_inv 2); [exact H|reflexivity]. Qed.

Lemma pow2_plus (e1 e2 : Z) : 2 ^ (e1 + e2) == 2 ^ e1 * 2 ^ e2.
Proof. apply Qpower_plus. discriminate. Qed.

Lemma pow2_minus (e1 e2 : Z) : 2 ^ (e1 - e2) == 2 ^ e1 / 2 ^ e2.
Proof. apply Qpower_minus. discriminate. Qed.

Lemma pow2_inject (e : Z) : (0 <= e)%Z -> inject_Z (2 ^ e) == 2 ^ e.
Proof. intros H. now rewrite Zpower_Qpower. Qed.

(** ** The binary exponent of a positive rational *)

Lemma ilog2_spec (x : Q) :
  0 < x -> 2 ^ ilog2 x <= x /\ x < 2 ^ (ilog2 x + 1).
Proof.
  intros Hx. unfold ilog2.
  destruct x as [n d]. cbn [Qnum Qden].
  assert (Hn : (0 < n)%Z) by (unfold Qlt in Hx; simpl in Hx; lia).
  destruct (Z.log2_spec n Hn) as [Ha1 Ha2].
  destruct (Z.log2_spec (Zpos d) eq_refl) as [Hb1 Hb2].
  rewrite <- Z.add_1_r in Ha2, Hb2.
  set (a := Z.log2 n) in *. set (b := Z.log2 (Zpos d)) in *.
  assert (Ha : (0 <= a)%Z) by apply Z.log2_nonneg.
  assert (Hb : (0 <= b)%Z) by apply Z.log2_nonneg.
  assert (Ex : n # d == inject_Z n / inject_Z (Zpos d)) by apply Qmake_Qdiv.
  assert (HD : 0 < inject_Z (Zpos d)) by reflexivity.
  assert (Hup : n # d < 2 ^ (a - b + 1)).
  { replace (a - b + 1)%Z with ((a + 1) - b)%Z by lia.
    rewrite pow2_minus. apply Qlt_shift_div_l; [apply pow2_pos|].
    rewrite <- (pow2_inject (a + 1)) by lia.
    rewrite <- (pow2_inject b) by lia.
    rewrite Ex. unfold Qdiv. rewrite <- Qmult_assoc, (Qmult_comm (/ _)).
    rewrite Qmult_assoc.
    apply Qlt_shift_div_r; [exact HD|].
    rewrite <- !inject_Z_mult, <- Zlt_Qlt.
    apply Z.le_lt_trans with (n * Zpos d)%Z.
    - apply Z.mul_le_mono_nonneg_l; lia.
    - apply Z.mul_lt_mono_pos_r; lia. }
  assert (Hlo : 2 ^ (a - b - 1) <= n # d).
  { replace (a - b - 1)%Z with (a - (b + 1))%Z by lia.
    rewrite pow2_minus. apply Qle_shift_div_r; [apply pow2_pos|].
    rewrite <- (pow2_inject a) by lia.
    rewrite <- (pow2_inject (b + 1)) by lia.
    rewrite Ex. unfold Qdiv. rewrite <- Qmult_assoc, (Qmult_comm (/ _)).
    rewrite Qmult_assoc.
    apply Qle_shift_div_l; [exact HD|].
    rewrite <- !inject_Z_mult, <- Zle_Qle.
    apply Z.le_trans with (n * Zpos d)%Z.
    - apply Z.mul_le_mono_nonneg_r; lia.
    - apply Z.mul_le_mono_nonneg_l; lia. }
  destruct (Qle_bool (2 ^ (a - b)) (n # d)) eqn:E.
  - apply Qle_bool_iff in E. split; [exact E | exact Hup].
  - split; [exact Hlo|].
    replace (a - b - 1 + 1)%Z with (a - b)%Z by lia.
    apply Qnot_le_lt. intros H. apply Qle_bool_iff in H. congruence.
Qed.

Lemma ilog2_unique (x : Q) (e : Z) :
  2 ^ e <= x -> x < 2 ^ (e + 1) -> ilog2 x = e.
Proof.
  intros H1 H2.
  assert (Hx : 0 < x) by (pose proof (pow2_pos e); lra).
  destruct (ilog2_spec x Hx) as [H3 H4].
  assert (A : 2 ^ e < 2 ^ (ilog2 x + 1)) by lra.
  assert (B : 2 ^ ilog2 x < 2 ^ (e + 1)) by lra.
  apply pow2_lt_inv in A, B. lia.
Qed.

Lemma ilog2_mono (x y : Q) : 0 < x -> x <= y -> (ilog2 x <= ilog2 y)%Z.
Proof.
  intros Hx Hxy.
  destruct (ilog2_spec x Hx) as [H1 _].
  destruct (ilog2_spec y ltac:(lra)) as [_ H2].
  assert (A : 2 ^ ilog2 x < 2 ^ (ilog2 y + 1)) by lra.
  apply pow2_lt_inv in A. lia.
Qed.

Lemma ilog2_lt (x : Q) (k : Z) : 0 < x -> x < 2 ^ k -> (ilog2 x < k)%Z.
Proof.
  intros Hx Hk. destruct (ilog2_spec x Hx) as [H1 _].
  assert (A : 2 ^ ilog2 x < 2 ^ k) by lra.
  now apply pow2_lt_inv in A.
Qed.

Lemma ilog2_ge (x : Q) (k : Z) : 2 ^ k <= x -> (k <= ilog2 x)%Z.
Proof.
  intros Hk. assert (Hx : 0 < x) by (pose proof (pow2_pos k); lra).
  destruct (ilog2_spec x Hx) as [_ H2].
  assert (A : 2 ^ k < 2 ^ (ilog2 x + 1)) by lra.
  apply pow2_lt_inv in A. lia.
Qed.

(** ** Rounding to the nearest integer, ties to even *)

Lemma py_round_cases (x : Q) :
  (py_round x = Qfloor x /\ x - inject_Z (Qfloor x) <= 1 # 2) \/
  (py_round x = (Qfloor x + 1)%Z /\ 1 # 2 <= x - inject_Z (Qfloor x)).
Proof.
  unfold py_round.
  destruct (Qcompare_spec (x - inject_Z (Qfloor x)) (1 # 2)) as [E|E|E].
  - destruct (Z.even (Qfloor x)); [left|right]; split; try reflexivity;
      rewrite E; apply Qle_refl.
  - left. split; [reflexivity|lra].
  - right. split; [reflexivity|lra].
Qed.

Lemma py_round_mono (x y : Q) : x <= y -> (py_round x <= py_round y)%Z.
Proof.
  intros Hxy.
  pose proof (Qfloor_resp_le x y Hxy) as Hf.
  destruct (Z.eq_dec (Qfloor x) (Qfloor y)) as [E|E].
  - unfold py_round. rewrite <- E.
    destruct (Qcompare_spec (x - inject_Z (Qfloor x)) (1 # 2)) as [A|A|A];
    destruct (Qcompare_spec (y - inject_Z (Qfloor x)) (1 # 2)) as [B|B|B];
      try destruct (Z.even (Qfloor x)); try lia; lra.
  - destruct (py_round_cases x) as [[-> _]|[-> _]];
    destruct (py_round_cases y) as [[-> _]|[-> _]]; lia.
Qed.

Lemma py_round_comp (x y : Q) : x == y -> py_round x = py_round y.
Proof.
  intros E. apply Z.le_antisymm; apply py_round_mono; rewrite E; apply Qle_refl.
Qed.

Lemma py_round_Z (k : Z) : py_round (inject_Z k) = k.
Proof.
  unfold py_round. rewrite Qfloor_Z.
  destruct (Qcompare_spec (inject_Z k - inject_Z k) (1 # 2)) as [A|A|A];
    try reflexivity; lra.
Qed.

Lemma py_round_near (x : Q) :
  inject_Z (py_round x) - x <= 1 # 2 /\ x - inject_Z (py_round x) <= 1 # 2.
Proof.
  pose proof (Qfloor_le x) as Hlo. pose proof (Qlt_floor x) as Hhi.
  rewrite inject_Z_plus in Hhi. change (inject_Z 1) with 1 in Hhi.
  destruct (py_round_cases x) as [[-> H]|[-> H]].
  - split; lra.
  - rewrite inject_Z_plus. change (inject_Z 1) with 1. split; lra.
Qed.

Lemma py_round_le (x : Q) (n : Z) : (x <= inject_Z n)%Q -> (py_round x <= n)%Z.
Proof.
  intros Hx. rewrite <- (py_round_Z n). now apply py_round_mono.
Qed.

Lemma py_round_ge (x : Q) (n : Z) : (inject_Z n <= x)%Q -> (n <= py_round x)%Z.
Proof.
  intros Hx. rewrite <- (py_round_Z n). now apply py_round_mono.
Qed.

(** ** Binary64 rounding *)

Lemma spacing_pos (x : Q) : 0 < spacing x.
Proof. apply pow2_pos. Qed.

Lemma binade_mono (x y : Q) : 0 < x -> x <= y -> (binade x <= binade y)%Z.
Proof.
  intros Hx Hxy. unfold binade. pose proof (ilog2_mono x y Hx Hxy). lia.
Qed.

Lemma scaled_le (x y u : Q) : 0 < u -> x <= y -> x / u <= y / u.
Proof.
  intros Hu Hxy. apply Qle_shift_div_l; [exact Hu|].
  unfold Qdiv. rewrite <- Qmult_assoc, (Qmult_comm (/ u)), Qmult_inv_r by lra.
  lra.
Qed.

Lemma pow2_ratio (a b : Z) : 2 ^ a / 2 ^ b == 2 ^ (a - b).
Proof. now rewrite pow2_minus. Qed.

Lemma fl_pos_nonneg (x : Q) : 0 < x -> 0 <= fl_pos x.
Proof.
  intros Hx. unfold fl_pos. pose proof (spacing_pos x) as Hu.
  assert (H : (0 <= py_round (x / spacing x))%Z).
  { apply py_round_ge. change (inject_Z 0) with 0.
    apply Qle_shift_div_l; [exact Hu|]. lra. }
  rewrite Zle_Qle in H. change (inject_Z 0) with 0 in H.
  apply Qmult_le_0_compat; lra.
Qed.

Lemma fl_pos_upper (x : Q) : 0 < x -> fl_pos x <= 2 ^ (binade x + 1).
Proof.
  intros Hx. unfold fl_pos, spacing. set (E := binade x).
  destruct (ilog2_spec x Hx) as [_ Hhi].
  assert (HE : (ilog2 x <= E)%Z) by (unfold E, binade; lia).
  assert (Hx' : x <= 2 ^ (E + 1)).
  { apply Qle_trans with (2 ^ (ilog2 x + 1)); [lra|]. apply pow2_le. lia. }
  assert (H : (py_round (x / 2 ^ (E - 52)) <= 2 ^ 53)%Z).
  { apply py_round_le. rewrite pow2_inject by lia.
    apply Qle_trans with (2 ^ (E + 1) / 2 ^ (E - 52)).
    - apply scaled_le; [apply pow2_pos|exact Hx'].
    - rewrite pow2_ratio. replace (E + 1 - (E - 52))%Z with 53%Z by lia.
      apply Qle_refl. }
  rewrite Zle_Qle, pow2_inject in H by lia.
  replace (E + 1)%Z with (53 + (E - 52))%Z by lia. rewrite pow2_plus.
  apply Qmult_le_compat_r; [exact H|]. pose proof (pow2_pos (E - 52)). lra.
Qed.

Lemma fl_pos_lower (x : Q) :
  0 < x -> (-1022 <= ilog2 x)%Z -> 2 ^ binade x <= fl_pos x.
Proof.
  intros Hx Hn. unfold fl_pos, spacing.
  assert (HE : binade x = ilog2 x) by (unfold binade; lia).
  rewrite HE. set (E := ilog2 x) in *.
  destruct (ilog2_spec x Hx) as [Hlo _]. fold E in Hlo.
  assert (H : (2 ^ 52 <= py_round (x / 2 ^ (E - 52)))%Z).
  { apply py_round_ge. rewrite pow2_inject by lia.
    apply Qle_trans with (2 ^ E / 2 ^ (E - 52)).
    - rewrite pow2_ratio. replace (E - (E - 52))%Z with 52%Z by lia.
      apply Qle_refl.
    - apply scaled_le; [apply pow2_pos|exact Hlo]. }
  rewrite Zle_Qle, pow2_inject in H by lia.
  replace E with (52 + (E - 52))%Z at 1 by lia. rewrite pow2_plus.
  apply Qmult_le_compat_r; [exact H|]. pose proof (pow2_pos (E - 52)). lra.
Qed.

Lemma fl_pos_mono (x y : Q) : 0 < x -> x <= y -> fl_pos x <= fl_pos y.
Proof.
  intros Hx Hxy. assert (Hy : 0 < y) by lra.
  pose proof (binade_mono x y Hx Hxy) as HE.
  destruct (Z.eq_dec (binade x) (binade y)) as [E|E].
  - unfold fl_pos, spacing. rewrite E.
    pose proof (pow2_pos (binade y - 52)) as Hu.
    apply Qmult_le_compat_r; [|lra].
    rewrite <- Zle_Qle. apply py_round_mono. now apply scaled_le.
  - apply Qle_trans with (2 ^ (binade x + 1)); [now apply fl_pos_upper|].
    apply Qle_trans with (2 ^ binade y); [apply pow2_le; lia|].
    apply fl_pos_lower; [exact Hy|]. unfold binade in *. lia.
Qed.

(** Rounding is monotone. *)
Lemma fl_mono (x y : Q) : x <= y -> fl x <= fl y.
Proof.
  intros Hxy. unfold fl.
  destruct (Qcompare_spec x 0) as [Ex|Ex|Ex];
  destruct (Qcompare_spec y 0) as [Ey|Ey|Ey]; try lra.
  - apply fl_pos_nonneg. lra.
  - pose proof (fl_pos_nonneg (- x) ltac:(lra)). lra.
  - pose proof (fl_pos_mono (- y) (- x) ltac:(lra) ltac:(lra)). lra.
  - pose proof (fl_pos_nonneg (- x) ltac:(lra)).
    pose proof (fl_pos_nonneg y ltac:(lra)). lra.
  - now apply fl_pos_mono.
Qed.

Lemma fl_comp (x y : Q) : x == y -> fl x == fl y.
Proof.
  intros E. apply Qle_antisym; apply fl_mono; rewrite E; apply Qle_refl.
Qed.

#[global] Instance fl_Proper : Proper (Qeq ==> Qeq) fl.
Proof. intros x y E. now apply fl_comp. Qed.

Lemma fl_0 : fl 0 == 0.
Proof. reflexivity. Qed.

(** Integers below [2^53] are binary64 values. *)
Lemma fl_nat (n : Z) : (0 <= n < 2 ^ 53)%Z -> fl (inject_Z n) == inject_Z n.
Proof.
  intros [Hlo Hhi].
  destruct (Z.eq_dec n 0) as [->|Hn]; [reflexivity|].
  assert (Hx : 0 < inject_Z n)
    by (change 0 with (inject_Z 0); rewrite <- Zlt_Qlt; lia).
  unfold fl. destruct (Qcompare_spec (inject_Z n) 0) as [E|E|E]; try lra.
  assert (He0 : (0 <= ilog2 (inject_Z n))%Z).
  { apply ilog2_ge. change (2 ^ 0) with (inject_Z 1). rewrite <- Zle_Qle. lia. }
  assert (He1 : (ilog2 (inject_Z n) < 53)%Z).
  { apply ilog2_lt; [exact Hx|]. rewrite <- pow2_inject by lia.
    now rewrite <- Zlt_Qlt. }
  unfold fl_pos, spacing.
  assert (HE : binade (inject_Z n) = ilog2 (inject_Z n))
    by (unfold binade; lia).
  rewrite HE. set (e := ilog2 (inject_Z n)) in *.
  assert (Es : inject_Z n / 2 ^ (e - 52) == inject_Z (n * 2 ^ (52 - e))).
  { rewrite inject_Z_mult, pow2_inject by lia.
    replace (e - 52)%Z with (- (52 - e))%Z by lia.
    rewrite Qpower_opp. unfold Qdiv. now rewrite Qinv_involutive. }
  rewrite (py_round_comp _ _ Es), py_round_Z.
  rewrite inject_Z_mult, pow2_inject by lia.
  rewrite <- Qmult_assoc, <- pow2_plus.
  replace (52 - e + (e - 52))%Z with 0%Z by lia.
  change (2 ^ 0) with 1. apply Qmult_1_r.
Qed.

Lemma fl_opp (x : Q) : fl (- x) == - fl x.
Proof.
  unfold fl.
  destruct (Qcompare_spec x 0) as [Ex|Ex|Ex];
  destruct (Qcompare_spec (- x) 0) as [Ey|Ey|Ey]; try lra.
  assert (E : fl_pos (- - x) == fl_pos x).
  { apply Qle_antisym; apply fl_pos_mono; lra. }
  now rewrite E.
Qed.


Local Open Scope Z_scope.

(** * The 16-bit quantiser of the setters *)

Lemma fl_65535 : (fl 65535 == 65535)%Q.
Proof. apply (fl_nat 65535). lia. Qed.

Lemma fmul_unit_range (v : Q) :
  (0 <= v /\ v <= 1)%Q -> (0 <= fmul v 65535 /\ fmul v 65535 <= 65535)%Q.
Proof.
  intros [H0 H1]. unfold fmul. split.
  - rewrite <- fl_0. apply fl_mono. lra.
  - rewrite <- fl_65535 at 2. apply fl_mono. lra.
Qed.

Lemma unit_quantum_range (v : Q) :
  (0 <= v /\ v <= 1)%Q -> 0 <= quantise v < 256 ^ Z.of_nat 2.
Proof.
  intros Hv. destruct (fmul_unit_range v Hv) as [Ha Hb].
  unfold quantise. rewrite py_int_nonneg by exact Ha.
  apply Qfloor_resp_le in Ha, Hb.
  change (Qfloor 0) with 0 in Ha. change (Qfloor 65535) with 65535 in Hb.
  change (256 ^ Z.of_nat 2) with 65536. lia.
Qed.

(** The value sent is the truncation of the rounded product; it is less than
    1 away from the exact product. *)
Lemma quantise_spec (v : Q) :
  (0 <= v /\ v <= 1)%Q ->
  (inject_Z (quantise v) <= fmul v 65535 /\
   fmul v 65535 < inject_Z (quantise v) + 1 /\
   inject_Z (quantise v) - 1 < v * 65535 /\
   v * 65535 < inject_Z (quantise v) + 1)%Q.
Proof.
  intros Hv. destruct (fmul_unit_range v Hv) as [Ha Hb].
  pose proof (unit_quantum_range v Hv) as Hq.
  change (256 ^ Z.of_nat 2) with 65536 in Hq.
  unfold quantise in *. rewrite py_int_nonneg in * by exact Ha.
  set (p := fmul v 65535) in *. set (q := Qfloor p) in *.
  pose proof (Qfloor_le p) as Hlo. pose proof (Qlt_floor p) as Hhi.
  fold q in Hlo, Hhi. rewrite inject_Z_plus in Hhi.
  change (inject_Z 1) with 1%Q in Hhi.
  split; [exact Hlo|]. split; [exact Hhi|]. split.
  - apply Qnot_le_lt. intros H.
    assert (Hq1 : 0 <= q - 1).
    { destruct (Z.eq_dec q 0) as [E|E]; [|lia].
      rewrite E in H. change (inject_Z 0) with 0%Q in H. lra. }
    assert (E1 : (inject_Z (q - 1) == inject_Z q - 1)%Q).
    { unfold Z.sub. rewrite inject_Z_plus, inject_Z_opp. reflexivity. }
    assert (Hp : (p <= inject_Z (q - 1))%Q).
    { rewrite <- (fl_nat (q - 1)) by lia. apply fl_mono.
      rewrite E1. exact H. }
    rewrite E1 in Hp. lra.
  - apply Qnot_le_lt. intros H.
    assert (Hp : (inject_Z (q + 1) <= p)%Q).
    { rewrite <- (fl_nat (q + 1)) by lia. apply fl_mono.
      rewrite inject_Z_plus. exact H. }
    rewrite inject_Z_plus in Hp. change (inject_Z 1) with 1%Q in Hp. lra.
Qed.

Lemma quantum_error (v : Q) :
  (0 <= v /\ v <= 1)%Q ->
  (Qabs (inject_Z (quantise v) / 65535 - v) <= 1 / 65535)%Q.
Proof.
  intros Hv. destruct (quantise_spec v Hv) as (_ & _ & H1 & H2).
  apply Qabs_Qle_condition. rewrite !Qdiv_65535. split; lra.
Qed.

(** [fl] and the kernel's binary64 arithmetic agree where they were compared:
    on the literals [0.6], [0.7] and [1/3], on products by 65535 that round up
    to the next integer, and on subnormal ties. *)
Lemma fl_agrees_with_binary64 :
  (fl (6 # 10) == Q_of_float 0x1.3333333333333p-1 /\
   fl (7 # 10) == Q_of_float 0x1.6666666666666p-1 /\
   fl (- (1 # 3)) == Q_of_float (-1 / 3) /\
   fmul (Q_of_float 0x1.3333333333333p-1) 65535 ==
     Q_of_float (0x1.3333333333333p-1 * 65535) /\
   fmul (Q_of_float (1 / 65535)) 65535 == Q_of_float (1 / 65535 * 65535) /\
   fmul (fdiv (fadd (Q_of_float 0x1.000200020002p+0) 1) 2) 65535 ==
     Q_of_float ((0x1.000200020002p+0 + 1) / 2 * 65535) /\
   fl (3 * 2 ^ (-1074) / 2) == Q_of_float (0x1p-1074 * 3 / 2) /\
   fl (5 * 2 ^ (-1074) / 2) == Q_of_float (0x1p-1074 * 5 / 2))%Q%float.
Proof. repeat split; vm_compute; reflexivity. Qed.

(** The setters' value for the floats [0.6] and [1/65535.0]: the rounded
    product reaches the next integer, which the exact product does not. *)
Lemma quantise_rounds_before_truncating :
  quantise (fl (6 # 10)) = 39321 /\ Qfloor (fl (6 # 10) * 65535) = 39320 /\
  quantise (fl (1 / 65535)) = 1 /\ Qfloor (fl (1 / 65535) * 65535) = 0.
Proof. repeat split; vm_compute; reflexivity. Qed.

(** ** Name fields *)

Lemma rstrip_nuls (k : nat) : rstrip (repeat Byte.x00 k) = [].
Proof. induction k as [|k IH]; simpl; [reflexivity|]. now rewrite IH. Qed.

Lemma rstrip_app_nuls (l : bytes) (k : nat) :
  rstrip (l ++ repeat Byte.x00 k) = rstrip l.
Proof.
  induction l as [|x t IH]; simpl.
  - apply rstrip_nuls.
  - now rewrite IH.
Qed.

Lemma rstrip_spec (l : bytes) : exists k, l = rstrip l ++ repeat Byte.x00 k.
Proof.
  induction l as [|x t [k IH]]; simpl.
  - now exists 0%nat.
  - destruct (rstrip t) as [|y t'] eqn:E.
    + destruct (is_nul x) eqn:Ex.
      * apply Byte.byte_dec_bl in Ex. subst x.
        exists (S k). simpl in *. now rewrite <- IH.
      * exists k. simpl in *. now rewrite <- IH.
    + exists k. rewrite IH at 1. reflexivity.
Qed.

Lemma forallb_repeat {A} (p : A -> bool) (x : A) (k : nat) :
  p x = true -> forallb p (repeat x k) = true.
Proof. intros H. induction k; simpl; [reflexivity|]. now rewrite H. Qed.

Lemma ascii_rstrip (l : bytes) :
  forallb is_ascii_byte (rstrip l) = forallb is_ascii_byte l.
Proof.
  destruct (rstrip_spec l) as [k H]. rewrite H at 2.
  rewrite forallb_app, forallb_repeat by reflexivity.
  now rewrite andb_true_r.
Qed.

Lemma is_ascii_firstn (n : str) (k : nat) :
  is_ascii n = true -> is_ascii (firstn k n) = true.
Proof.
  unfold is_ascii. rewrite <- (firstn_skipn k n) at 1.
  rewrite forallb_app, andb_true_iff. tauto.
Qed.

Lemma ascii_bytes_of_str (n : str) :
  is_ascii n = true ->
  forallb is_ascii_byte (map byte_of_N n) = true /\
  map Byte.to_N (map byte_of_N n) = n.
Proof.
  unfold is_ascii. induction n as [|c t IH]; simpl; [now split|].
  rewrite andb_true_iff. intros [Hc Ht]. destruct (IH Ht) as [IH1 IH2].
  apply N.ltb_lt in Hc.
  assert (E : Byte.to_N (byte_of_N c) = c) by (apply byte_of_N_val; lia).
  unfold is_ascii_byte at 1. rewrite E, IH1, IH2.
  split; [|reflexivity]. apply andb_true_iff. split; [|reflexivity].
  now apply N.ltb_lt.
Qed.

Lemma name_field_ok (width : nat) (n : str) :
  is_ascii n = true ->
  name_field width n =
    Ok (firstn width
          (map byte_of_N n ++
           repeat Byte.x00 (width - length (map byte_of_N n)))).
Proof.
  intros H. unfold name_field, encode_ascii, ljust. rewrite H.
  now rewrite slice_0.
Qed.

Lemma length_name_field (width : nat) (n : str) (field : bytes) :
  name_field width n = Ok field -> length field = width.
Proof.
  unfold name_field, encode_ascii, ljust.
  destruct (is_ascii n); [|discriminate]. intros [= <-].
  rewrite slice_0, length_firstn, length_app, repeat_length. lia.
Qed.

Lemma rstrip_padded (width : nat) (b : bytes) :
  rstrip (firstn width (b ++ repeat Byte.x00 (width - length b))) =
  rstrip (firstn width b).
Proof.
  destruct (Nat.le_gt_cases (length b) width) as [Hle|Hgt].
  - rewrite (firstn_all2 b) by exact Hle.
    rewrite firstn_all2 by (rewrite length_app, repeat_length; lia).
    apply rstrip_app_nuls.
  - replace (width - length b)%nat with 0%nat by lia.
    simpl. now rewrite app_nil_r.
Qed.

Lemma last_repeat_nul (l : str) (k : nat) (d : N) :
  last (l ++ repeat 0%N (S k)) d = 0%N.
Proof.
  replace (repeat 0%N (S k)) with (repeat 0%N k ++ [0%N]).
  - now rewrite app_assoc, last_last.
  - clear. induction k; simpl; [reflexivity|]. now rewrite IHk.
Qed.

(** What the strict decoder makes of an encoded field. *)
Lemma decode_name_field (width : nat) (n : str) (field : bytes) :
  is_ascii n = true ->
  name_field width n = Ok field ->
  exists decoded k,
    decode_ascii (rstrip field) = Ok decoded /\
    decoded ++ repeat 0%N k = firstn width n.
Proof.
  intros Ha Hf. rewrite name_field_ok in Hf by exact Ha.
  injection Hf as <-. rewrite rstrip_padded, firstn_map.
  set (n1 := firstn width n).
  assert (Ha1 : is_ascii n1 = true) by now apply is_ascii_firstn.
  destruct (ascii_bytes_of_str n1 Ha1) as [Hb Hm].
  destruct (rstrip_spec (map byte_of_N n1)) as [k Hk].
  exists (map Byte.to_N (rstrip (map byte_of_N n1))), k. split.
  - unfold decode_ascii. now rewrite ascii_rstrip, Hb.
  - rewrite <- Hm at 2. rewrite Hk at 2. rewrite map_app, map_repeat.
    reflexivity.
Qed.

(** ** Record arrays *)

Lemma list_drives_loop_generic (raw : bytes) (idx : list nat) (result : dict) :
  InstinctModel.list_drives_loop raw idx result =
  named_value_loop (fun v => v) raw idx result.
Proof.
  revert result. induction idx as [|i rest IH]; intros result; simpl.
  - reflexivity.
  - destruct (_ <? 18)%nat; [reflexivity|].
    destruct (decode_ascii _); [apply IH|reflexivity].
Qed.

Lemma snapshot_loop_generic (raw : bytes) (idx : list nat) (result : dict) :
  PersonalityEngine.snapshot_loop raw idx result =
  named_value_loop round4 raw idx result.
Proof.
  revert result. induction idx as [|i rest IH]; intros result; simpl.
  - reflexivity.
  - destruct (_ <? 18)%nat; [reflexivity|].
    destruct (decode_ascii _); [apply IH|reflexivity].
Qed.

Lemma py_range_chunks (size n : nat) :
  (0 < size)%nat ->
  py_range 0 n size =
  map (fun k => (k * size)%nat) (seq 0 (n / size)) ++
  (if (n mod size =? 0)%nat then [] else [(n / size * size)%nat]).
Proof.
  intros Hs. unfold py_range. rewrite Nat.sub_0_r.
  pose proof (Nat.div_mod_eq n size) as Hn.
  pose proof (Nat.mod_upper_bound n size ltac:(lia)) as Hr.
  set (q := (n / size)%nat) in *. set (r := (n mod size)%nat) in *.
  assert (Hq : ((n + (size - 1)) / size =
                q + (if (r =? 0)%nat then 0 else 1))%nat).
  { symmetry. destruct (Nat.eqb_spec r 0) as [E|E].
    - apply Nat.div_unique with (r := (size - 1)%nat); nia.
    - apply Nat.div_unique with (r := (r - 1)%nat); nia. }
  rewrite Hq, seq_app, map_app. f_equal.
  destruct (Nat.eqb_spec r 0); reflexivity.
Qed.

Lemma full_chunk_length (size : nat) (raw : bytes) (k : nat) :
  (k * size + size <= length raw)%nat ->
  length (slice raw (k * size) (k * size + size)) = size.
Proof. intros H. rewrite length_slice. lia. Qed.

Lemma full_chunk_bound (size n k : nat) :
  (0 < size)%nat -> In k (seq 0 (n / size)) -> (k * size + size <= n)%nat.
Proof.
  intros Hs Hk. apply in_seq in Hk.
  pose proof (Nat.div_mod_eq n size). nia.
Qed.

Lemma partial_chunk_length (size : nat) (raw : bytes) :
  (0 < size)%nat -> (length raw mod size <> 0)%nat ->
  (length (slice raw (length raw / size * size)
                 (length raw / size * size + size)) < size)%nat.
Proof.
  intros Hs Hr. rewrite length_slice.
  pose proof (Nat.div_mod_eq (length raw) size).
  pose proof (Nat.mod_upper_bound (length raw) size ltac:(lia)). nia.
Qed.

Lemma named_value_loop_full (post : Q -> Q) (raw : bytes) (ks rest : list nat) :
  (forall k, In k ks -> (k * 18 + 18 <= length raw)%nat) ->
  forall result,
    named_value_loop post raw (map (fun k => (k * 18)%nat) ks ++ rest) result =
    match decode_all post (map (chunk_at 18 raw) ks) result with
    | Ok r => named_value_loop post raw rest r
    | Raise e => Raise e
    end.
Proof.
  induction ks as [|k ks IH]; intros Hfull result; [reflexivity|].
  cbn [map app named_value_loop decode_all].
  rewrite full_chunk_length by (apply Hfull; now left).
  cbn [Nat.ltb Nat.leb]. unfold decode_ascii. rewrite ascii_rstrip.
  fold (chunk_at 18 raw k).
  destruct (forallb is_ascii_byte (slice (chunk_at 18 raw k) 0 16));
    [|reflexivity].
  apply IH. intros j Hj. apply Hfull. now right.
Qed.

(** The loop decodes the full chunks, in order, and nothing else. *)
Lemma named_value_loop_spec (post : Q -> Q) (raw : bytes) :
  named_value_loop post raw (py_range 0 (length raw) 18) [] =
  decode_all post (full_chunks 18 raw) [].
Proof.
  rewrite py_range_chunks by lia.
  rewrite named_value_loop_full
    by (intros k Hk; apply (full_chunk_bound 18); [lia|exact Hk]).
  fold (full_chunks 18 raw).
  destruct (decode_all post (full_chunks 18 raw) []) as [r|e]; [|reflexivity].
  destruct (Nat.eqb_spec (length raw mod 18) 0) as [E|E]; [reflexivity|].
  cbn [named_value_loop].
  pose proof (partial_chunk_length 18 raw ltac:(lia) E) as Hp.
  apply Nat.ltb_lt in Hp. now rewrite Hp.
Qed.

Lemma decode_all_ascii (post : Q -> Q) (chunks : list bytes) :
  (forall c, In c chunks -> forallb is_ascii_byte (slice c 0 16) = true) ->
  forall result,
    decode_all post chunks result =
    Ok (dict_update result (map (named_value post) chunks)).
Proof.
  induction chunks as [|c cs IH]; intros Ha result; [reflexivity|].
  cbn [decode_all map]. rewrite (Ha c) by now left.
  rewrite IH by (intros c' Hc'; apply Ha; now right). reflexivity.
Qed.

Lemma decode_all_invalid (post : Q -> Q) (chunks : list bytes) :
  (exists c, In c chunks /\ forallb is_ascii_byte (slice c 0 16) = false) ->
  forall result, decode_all post chunks result = Raise UnicodeDecodeError.
Proof.
  induction chunks as [|c cs IH]; intros [c0 [Hin Hbad]] result.
  - destruct Hin.
  - cbn [decode_all].
    destruct (forallb is_ascii_byte (slice c 0 16)) eqn:E; [|reflexivity].
    apply IH. exists c0. split; [|exact Hbad].
    destruct Hin as [->|Hin]; [congruence|exact Hin].
Qed.

Lemma length_full_chunks (size : nat) (raw : bytes) :
  length (full_chunks size raw) = (length raw / size)%nat.
Proof. unfold full_chunks. now rewrite length_map, length_seq. Qed.

Lemma nth_full_chunks (size : nat) (raw : bytes) (k : nat) :
  (k < length raw / size)%nat ->
  nth k (full_chunks size raw) [] = slice raw (k * size) (k * size + size).
Proof.
  intros Hk. unfold full_chunks.
  rewrite nth_indep with (d' := chunk_at size raw 0)
    by (rewrite length_map, length_seq; exact Hk).
  rewrite map_nth, seq_nth by exact Hk. reflexivity.
Qed.

(** *** dict *)

Lemma dict_set_fresh (d : dict) (k : str) (v : Q) :
  ~ In k (map fst d) -> dict_set d k v = d ++ [(k, v)].
Proof.
  induction d as [|[k' v'] t IH]; simpl; intros Hk; [reflexivity|].
  destruct (str_eq_dec k' k) as [E|E]; [tauto|].
  rewrite IH by tauto. reflexivity.
Qed.

Lemma dict_update_fresh (other d : dict) :
  NoDup (map fst (d ++ other)) -> dict_update d other = d ++ other.
Proof.
  revert d. induction other as [|[k v] t IH]; intros d Hnd.
  - simpl. now rewrite app_nil_r.
  - unfold dict_update in *. cbn [fold_left fst snd].
    assert (Hk : ~ In k (map fst d)).
    { rewrite map_app in Hnd. cbn [map fst] in Hnd.
      apply NoDup_remove_2 in Hnd. intros Hin. apply Hnd.
      apply in_or_app. now left. }
    rewrite dict_set_fresh by exact Hk.
    rewrite IH; rewrite <- app_assoc; [reflexivity|exact Hnd].
Qed.

(** *** Episodic records *)

Lemma recall_loop_full (raw : bytes) (ks rest : list nat) :
  (forall k, In k ks -> (k * 38 + 38 <= length raw)%nat) ->
  forall events,
    MemoryStore.recall_loop raw (map (fun k => (k * 38)%nat) ks ++ rest) events =
    MemoryStore.recall_loop raw rest
      (events ++ map episodic (map (chunk_at 38 raw) ks)).
Proof.
  induction ks as [|k ks IH]; intros Hfull events.
  - simpl. now rewrite app_nil_r.
  - cbn [map app MemoryStore.recall_loop].
    rewrite full_chunk_length by (apply Hfull; now left).
    cbn [Nat.ltb Nat.leb].
    rewrite IH by (intros j Hj; apply Hfull; now right).
    rewrite <- app_assoc. reflexivity.
Qed.

Lemma recall_loop_spec (raw : bytes) :
  MemoryStore.recall_loop raw (py_range 0 (length raw) 38) [] =
  map episodic (full_chunks 38 raw).
Proof.
  rewrite py_range_chunks by lia.
  rewrite recall_loop_full
    by (intros k Hk; apply (full_chunk_bound 38); [lia|exact Hk]).
  fold (full_chunks 38 raw). cbn [app].
  destruct (Nat.eqb_spec (length raw mod 38) 0) as [E|E]; [reflexivity|].
  cbn [MemoryStore.recall_loop].
  pose proof (partial_chunk_length 38 raw ltac:(lia) E) as Hp.
  apply Nat.ltb_lt in Hp. now rewrite Hp.
Qed.

(** * Drives and traits: what goes on the wire *)

Lemma firstn_app_exact {A} (l r : list A) (n : nat) :
  length l = n -> firstn n (l ++ r) = l.
Proof.
  intros <-. rewrite firstn_app, Nat.sub_diag, firstn_all. simpl.
  apply app_nil_r.
Qed.

Lemma wire_send_cmd (cmd : Z) (payload : bytes) (w : World) :
  wire (send_cmd cmd payload w) = sent (_unit w) ++ [(cmd, payload)].
Proof. unfold wire, send_cmd. now destruct (replies (_unit w)). Qed.

Lemma set_drive_in_range (name : str) (v : Q) (w : World) (nb : bytes) :
  (0 <= v /\ v <= 1)%Q ->
  name_field 16 name = Ok nb ->
  InstinctModel.set_drive name v w =
  (_ <- send_cmd InstinctModel.CMD_SET_DRIVE
          (nb ++ be_digits 2 (quantise v)) ;;
   cache_set name v) w.
Proof.
  intros Hv Hn. unfold InstinctModel.set_drive.
  rewrite (proj2 (in_unit_range_true v) Hv). cbn [negb].
  unfold bind at 1, lift at 1. rewrite Hn.
  unfold bind at 1, lift at 1.
  fold (quantise v).
  rewrite to_bytes_ok by now apply unit_quantum_range.
  reflexivity.
Qed.

Lemma set_in_range (trait : str) (v : Q) (w : World) (nb : bytes) :
  (0 <= v /\ v <= 1)%Q ->
  name_field 16 trait = Ok nb ->
  PersonalityEngine.set trait v w =
  (_ <- send_cmd PersonalityEngine.CMD_TRAIT_SET
          (nb ++ be_digits 2 (quantise v)) ;;
   ret tt) w.
Proof.
  intros Hv Hn. unfold PersonalityEngine.set.
  rewrite (proj2 (in_unit_range_true v) Hv). cbn [negb].
  unfold bind at 1, lift at 1. rewrite Hn.
  unfold bind at 1, lift at 1.
  fold (quantise v).
  rewrite to_bytes_ok by now apply unit_quantum_range.
  reflexivity.
Qed.

Lemma wire_bind_send {A} (cmd : Z) (payload : bytes) (k : bytes -> M A)
  (w : World) :
  (forall r w', wire (k r w') = sent (_unit w')) ->
  wire ((r <- send_cmd cmd payload ;; k r) w) =
  sent (_unit w) ++ [(cmd, payload)].
Proof.
  intros Hk. unfold bind, send_cmd.
  destruct (replies (_unit w)); [reflexivity|]. now rewrite Hk.
Qed.

(** C1 (as stated, refuted): at [v = 0.5] the product [v * 65535] is exactly
    [32767.5]; [set_drive] and [set] put [0x7FFF = 32767] on the wire, while
    [round(32767.5)] is [32768]. *)
Lemma set_value_field_not_rounded :
  exists payload,
    wire (InstinctModel.set_drive (str_of_string "x") (1 # 2) (fresh [[]])) =
      [(InstinctModel.CMD_SET_DRIVE, payload)] /\
    wire (PersonalityEngine.set (str_of_string "x") (1 # 2) (fresh [[]])) =
      [(PersonalityEngine.CMD_TRAIT_SET, payload)] /\
    from_bytes (slice payload 16 18) = 32767 /\
    py_round ((1 # 2) * 65535) = 32768 /\
    from_bytes (slice payload 16 18) <> py_round ((1 # 2) * 65535).
Proof.
  exists (map byte_of_N (str_of_string "x") ++ repeat Byte.x00 15 ++
          be_digits 2 32767).
  repeat split; vm_compute; (reflexivity || discriminate).
Qed.

(** C1 (amended): for every unit value [0 <= v <= 1] and every ASCII name, the
    2-byte big-endian integer that [set_drive] and [set] put on the wire after
    the 16-byte name field is [int(v * 65535)]: the binary64 product (the
    exact product rounded to the nearest binary64 value) truncated toward
    zero, not [round(v * 65535)].  It lies in [0, 65535] and is less than 1
    away from the exact product. *)
Theorem set_value_field_is_truncation (name : str) (v : Q) (w : World)
  (nb : bytes) :
  (0 <= v /\ v <= 1)%Q ->
  name_field 16 name = Ok nb ->
  let u := py_int (fmul v 65535) in
  wire (InstinctModel.set_drive name v w) =
    sent (_unit w) ++ [(InstinctModel.CMD_SET_DRIVE, nb ++ be_digits 2 u)] /\
  wire (PersonalityEngine.set name v w) =
    sent (_unit w) ++ [(PersonalityEngine.CMD_TRAIT_SET, nb ++ be_digits 2 u)] /\
  length (be_digits 2 u) = 2%nat /\
  from_bytes (slice (nb ++ be_digits 2 u) 16 18) = u /\
  0 <= u <= 65535 /\
  (inject_Z u <= fmul v 65535 /\ fmul v 65535 < inject_Z u + 1)%Q /\
  (inject_Z u - 1 < v * 65535 /\ v * 65535 < inject_Z u + 1)%Q.
Proof.
  intros Hv Hn u. fold (quantise v) in u.
  pose proof (unit_quantum_range v Hv) as Hu.
  destruct (quantise_spec v Hv) as (H1 & H2 & H3 & H4).
  change (256 ^ Z.of_nat 2) with 65536 in Hu.
  split; [|split; [|split; [|split; [|split; [|split]]]]].
  - rewrite (set_drive_in_range name v w nb Hv Hn).
    now apply wire_bind_send.
  - rewrite (set_in_range name v w nb Hv Hn).
    now apply wire_bind_send.
  - apply length_be_digits.
  - apply length_name_field in Hn. unfold slice.
    rewrite skipn_app, Hn, Nat.sub_diag, skipn_all2 by lia.
    cbn [app skipn]. rewrite firstn_all2 by (rewrite length_be_digits; lia).
    apply from_bytes_to_bytes. change (256 ^ Z.of_nat 2) with 65536.
    exact Hu.
  - unfold u. lia.
  - split; [exact H1 | exact H2].
  - split; [exact H3 | exact H4].
Qed.

Lemma set_value_field_is_truncation_witness :
  wire (InstinctModel.set_drive (str_of_string "curiosity") (fl 0.6)
          (fresh [[]])) =
    [(InstinctModel.CMD_SET_DRIVE,
      map byte_of_N (str_of_string "curiosity") ++ repeat Byte.x00 7 ++
      be_digits 2 39321)] /\
  from_bytes (be_digits 2 39321) = 39321.
Proof.
  assert (Hv : (0 <= fl 0.6 /\ fl 0.6 <= 1)%Q)
    by (split; vm_compute; discriminate).
  pose proof (set_value_field_is_truncation (str_of_string "curiosity")
                (fl 0.6) (fresh [[]])
                (map byte_of_N (str_of_string "curiosity") ++ repeat Byte.x00 7)
                Hv eq_refl) as H.
  cbv zeta in H. destruct H as (H1 & _ & _ & H4 & _).
  assert (E : py_int (fmul (fl 0.6) 65535) = 39321) by (vm_compute; reflexivity).
  rewrite E in H1, H4. split; [exact H1 | exact H4].
Defined.

(** C7: a weight outside [0, 1] makes [set_drive] raise [ValueError] at once:
    nothing is sent to the unit and the host cache is left as it was. *)
Theorem set_drive_rejects_out_of_range (name : str) (weight : Q) (w : World) :
  (weight < 0 \/ 1 < weight)%Q ->
  fst (InstinctModel.set_drive name weight w) = Raise ValueError /\
  wire (InstinctModel.set_drive name weight w) = sent (_unit w) /\
  _cache (snd (InstinctModel.set_drive name weight w)) = _cache w /\
  snd (InstinctModel.set_drive name weight w) = w.
Proof.
  intros H. unfold InstinctModel.set_drive.
  rewrite (proj2 (in_unit_range_false weight) H). cbn. tauto.
Qed.

Lemma set_drive_rejects_out_of_range_witness :
  fst (InstinctModel.set_drive (str_of_string "x") 1.5 (fresh [[]])) =
    Raise ValueError /\
  wire (InstinctModel.set_drive (str_of_string "x") 1.5 (fresh [[]])) = [] /\
  _cache (snd (InstinctModel.set_drive (str_of_string "x") 1.5 (fresh [[]]))) = [].
Proof.
  destruct (set_drive_rejects_out_of_range (str_of_string "x") 1.5 (fresh [[]])
              ltac:(right; reflexivity)) as (H1 & H2 & H3 & _).
  split; [exact H1|]. split; [exact H2 | exact H3].
Defined.

(** * Replies shorter than a value *)

Lemma get_drive_reply (name : str) (nb raw : bytes) (rs : list bytes)
  (w : World) :
  name_field 16 name = Ok nb ->
  replies (_unit w) = raw :: rs ->
  InstinctModel.get_drive name w =
  (Ok (decode_u16 raw),
   {| _unit := {| sent := sent (_unit w) ++ [(InstinctModel.CMD_GET_DRIVE, nb)];
                  replies := rs |};
      _cache := dict_set (_cache w) name (decode_u16 raw);
      time_time := time_time w |}).
Proof.
  intros Hn Hr. unfold InstinctModel.get_drive, bind, lift, send_cmd.
  rewrite Hn, Hr. reflexivity.
Qed.

Lemma get_reply (trait : str) (nb raw : bytes) (rs : list bytes) (w : World) :
  name_field 16 trait = Ok nb ->
  replies (_unit w) = raw :: rs ->
  fst (PersonalityEngine.get trait w) = Ok (decode_u16 raw).
Proof.
  intros Hn Hr. unfold PersonalityEngine.get, bind, lift, send_cmd.
  rewrite Hn, Hr. reflexivity.
Qed.

Lemma from_bytes_short (raw : bytes) :
  (length raw < 2)%nat -> 0 <= from_bytes raw < 256.
Proof.
  destruct raw as [|b [|c t]]; cbn [length]; intros H.
  - cbv. split; congruence.
  - unfold from_bytes. simpl. apply byte_val_range.
  - lia.
Qed.

(** C3 (as stated, refuted): with an empty reply, and with a 1-byte reply,
    [get_drive] and the trait [get] return a value and raise nothing. *)
Lemma get_drive_masks_short_reply :
  fst (InstinctModel.get_drive (str_of_string "curiosity") (fresh [[]])) =
    Ok (0 # 65535)%Q /\
  fst (InstinctModel.get_drive (str_of_string "curiosity") (fresh [[Byte.x05]])) =
    Ok (5 # 65535)%Q /\
  fst (PersonalityEngine.get (str_of_string "bold") (fresh [[]])) =
    Ok (0 # 65535)%Q /\
  is_ok (fst (InstinctModel.get_drive (str_of_string "curiosity") (fresh [[]]))) =
    true.
Proof. repeat split; reflexivity. Qed.

(** C3 (amended): [get_trust] is not the only operation that lets an undersized
    reply through.  For every reply shorter than 2 bytes, [get_drive] and the
    trait [get] raise nothing: they read the bytes that are there as a
    big-endian integer [u < 256] (0 for the empty reply) and return
    [u / 65535]; [get_drive] also stores it in the host cache. *)
Theorem short_reply_is_decoded (name : str) (nb raw : bytes) (rs : list bytes)
  (w : World) :
  name_field 16 name = Ok nb ->
  replies (_unit w) = raw :: rs ->
  (length raw < 2)%nat ->
  let val := (inject_Z (from_bytes raw) / 65535)%Q in
  fst (InstinctModel.get_drive name w) = Ok val /\
  _cache (snd (InstinctModel.get_drive name w)) = dict_set (_cache w) name val /\
  fst (PersonalityEngine.get name w) = Ok val /\
  0 <= from_bytes raw < 256 /\
  (raw = [] -> val == 0)%Q.
Proof.
  intros Hn Hr Hlen val.
  assert (E : decode_u16 raw = val).
  { unfold decode_u16, val. rewrite slice_all by lia. reflexivity. }
  rewrite (get_drive_reply name nb raw rs w Hn Hr), E.
  rewrite (get_reply name nb raw rs w Hn Hr), E.
  split; [reflexivity|]. split; [reflexivity|]. split; [reflexivity|].
  split; [now apply from_bytes_short|].
  intros ->. reflexivity.
Qed.

Lemma short_reply_is_decoded_witness :
  fst (InstinctModel.get_drive (str_of_string "rest") (fresh [[Byte.xff]])) =
    Ok (inject_Z 255 / 65535)%Q /\
  fst (PersonalityEngine.get (str_of_string "rest") (fresh [[Byte.xff]])) =
    Ok (inject_Z 255 / 65535)%Q.
Proof.
  destruct (short_reply_is_decoded (str_of_string "rest")
              (map byte_of_N (str_of_string "rest") ++ repeat Byte.x00 12)
              [Byte.xff] [] (fresh [[Byte.xff]]) eq_refl eq_refl
              ltac:(simpl; lia)) as (H1 & _ & H3 & _).
  split; [exact H1 | exact H3].
Defined.

(** * Quantisation round trip *)

(** C4: for every [v] in [0, 1], when the unit answers [get_drive] with the two
    value bytes that [set_drive] sent for [v] (followed by anything), the value
    [get_drive] returns is within [1/65535] of [v]. *)
Theorem drive_roundtrip_within_quantum (name : str) (nb : bytes) (v : Q)
  (w : World) :
  (0 <= v /\ v <= 1)%Q ->
  name_field 16 name = Ok nb ->
  exists wb,
    wire (InstinctModel.set_drive name v w) =
      sent (_unit w) ++ [(InstinctModel.CMD_SET_DRIVE, nb ++ wb)] /\
    length wb = 2%nat /\
    forall (w' : World) (extra : bytes) (rs : list bytes),
      replies (_unit w') = (wb ++ extra) :: rs ->
      exists val,
        fst (InstinctModel.get_drive name w') = Ok val /\
        (Qabs (val - v) <= 1 / 65535)%Q.
Proof.
  intros Hv Hn. exists (be_digits 2 (quantise v)).
  split; [|split].
  - rewrite (set_drive_in_range name v w nb Hv Hn).
    now apply wire_bind_send.
  - apply length_be_digits.
  - intros w' extra rs Hr. eexists. split.
    + rewrite (get_drive_reply name nb _ rs w' Hn Hr). reflexivity.
    + unfold decode_u16. rewrite slice_0.
      rewrite firstn_app_exact by apply length_be_digits.
      rewrite from_bytes_to_bytes by now apply unit_quantum_range.
      now apply quantum_error.
Qed.

Lemma drive_roundtrip_within_quantum_witness :
  exists wb,
    wire (InstinctModel.set_drive (str_of_string "curiosity") 0.7 (fresh [[]])) =
      [(InstinctModel.CMD_SET_DRIVE,
        (map byte_of_N (str_of_string "curiosity") ++ repeat Byte.x00 7) ++ wb)] /\
    exists val,
      fst (InstinctModel.get_drive (str_of_string "curiosity") (fresh [wb])) =
        Ok val /\
      (Qabs (val - 0.7) <= 1 / 65535)%Q.
Proof.
  destruct (drive_roundtrip_within_quantum (str_of_string "curiosity")
              (map byte_of_N (str_of_string "curiosity") ++ repeat Byte.x00 7)
              0.7 (fresh [[]]) ltac:(split; discriminate) eq_refl)
    as (wb & H1 & _ & H3).
  exists wb. split; [exact H1|].
  apply (H3 (fresh [wb]) [] []). simpl. now rewrite app_nil_r.
Defined.

(** * Name fields *)

(** C5 (as stated, refuted): the ASCII name ["a\x00"] fits the 16-byte field,
    but decoding its field gives ["a"]: the padding and a trailing NUL of the
    name cannot be told apart. *)
Lemma name_roundtrip_trailing_nul :
  is_ascii [97; 0]%N = true /\
  (length [97; 0]%N <= 16)%nat /\
  exists field,
    name_field 16 [97; 0]%N = Ok field /\
    decode_ascii (rstrip field) = Ok [97]%N /\
    decode_ascii (rstrip field) <> Ok [97; 0]%N.
Proof.
  split; [reflexivity|]. split; [simpl; lia|].
  eexists. split; [reflexivity|]. split; [reflexivity|]. discriminate.
Qed.

(** C5 (amended): for every ASCII name [n] and width, the encoded field is
    exactly [width] bytes; decoding it (strip trailing zero bytes, strict ASCII
    decode) never fails and yields the first [width] characters of [n] without
    their trailing NULs, a prefix of [n]; it yields [n] itself when [n] fits the
    width and does not end in NUL. *)
Theorem name_roundtrip (width : nat) (n : str) :
  is_ascii n = true ->
  exists field decoded,
    name_field width n = Ok field /\
    length field = width /\
    (forall tail,
        decode_ascii (rstrip (slice (field ++ tail) 0 width)) = Ok decoded) /\
    (exists k, decoded ++ repeat 0%N k = firstn width n) /\
    (exists rest, n = decoded ++ rest) /\
    ((length n <= width)%nat -> last n 1%N <> 0%N -> decoded = n).
Proof.
  intros Ha.
  destruct (name_field width n) as [field|e] eqn:Hf;
    [|rewrite name_field_ok in Hf by exact Ha; discriminate].
  destruct (decode_name_field width n field Ha Hf) as (decoded & k & Hd & Hk).
  pose proof (length_name_field width n field Hf) as Hlen.
  exists field, decoded. split; [reflexivity|]. split; [exact Hlen|].
  split; [|split; [|split]].
  - intros tail. rewrite slice_0, firstn_app_exact by exact Hlen. exact Hd.
  - now exists k.
  - exists (repeat 0%N k ++ skipn width n).
    rewrite app_assoc, Hk. symmetry. apply firstn_skipn.
  - intros Hle Hlast. rewrite firstn_all2 in Hk by exact Hle.
    destruct k as [|k].
    + simpl in Hk. now rewrite app_nil_r in Hk.
    + exfalso. apply Hlast. rewrite <- Hk. apply last_repeat_nul.
Qed.

Lemma name_roundtrip_witness :
  exists field,
    name_field 16 (str_of_string "self_preserve") = Ok field /\
    length field = 16%nat /\
    decode_ascii (rstrip (slice (field ++ [Byte.xe6; Byte.x65]) 0 16)) =
      Ok (str_of_string "self_preserve").
Proof.
  destruct (name_roundtrip 16 (str_of_string "self_preserve") eq_refl)
    as (field & decoded & H1 & H2 & H3 & _ & _ & H6).
  exists field. split; [exact H1|]. split; [exact H2|].
  rewrite (H3 [Byte.xe6; Byte.x65]). f_equal.
  apply H6; [simpl; lia | discriminate].
Defined.

(** * Record arrays: [list_drives], [snapshot], [recall] *)

Lemma list_drives_reply (raw : bytes) (rs : list bytes) (w : World) :
  replies (_unit w) = raw :: rs ->
  let w1 := {| _unit := {| sent := sent (_unit w) ++
                                     [(InstinctModel.CMD_LIST_DRIVES, [])];
                           replies := rs |};
               _cache := _cache w; time_time := time_time w |} in
  InstinctModel.list_drives w =
  match decode_all (fun v => v) (full_chunks 18 raw) [] with
  | Ok result =>
      (Ok result,
       {| _unit := _unit w1; _cache := dict_update (_cache w) result;
          time_time := time_time w |})
  | Raise e => (Raise e, w1)
  end.
Proof.
  intros Hr w1. unfold InstinctModel.list_drives, bind, lift, send_cmd.
  rewrite Hr, list_drives_loop_generic, named_value_loop_spec.
  now destruct (decode_all _ _ _).
Qed.

Lemma snapshot_reply (raw : bytes) (rs : list bytes) (w : World) :
  replies (_unit w) = raw :: rs ->
  fst (PersonalityEngine.snapshot w) = decode_all round4 (full_chunks 18 raw) [].
Proof.
  intros Hr. unfold PersonalityEngine.snapshot, bind, lift, send_cmd.
  rewrite Hr, snapshot_loop_generic, named_value_loop_spec. reflexivity.
Qed.

Lemma recall_reply (limit : Z) (raw : bytes) (rs : list bytes) (w : World) :
  0 <= limit < 65536 ->
  replies (_unit w) = raw :: rs ->
  fst (MemoryStore.recall limit w) = Ok (map episodic (full_chunks 38 raw)).
Proof.
  intros Hl Hr. unfold MemoryStore.recall, bind at 1, lift.
  rewrite to_bytes_ok by (change (256 ^ Z.of_nat 2) with 65536; lia).
  unfold bind, send_cmd, ret. rewrite Hr, recall_loop_spec. reflexivity.
Qed.

Lemma named_value_names (post : Q -> Q) (chunks : list bytes) :
  map fst (map (named_value post) chunks) =
  map (fun c => map Byte.to_N (rstrip (slice c 0 16))) chunks.
Proof. rewrite map_map. now apply map_ext. Qed.

(** C6 (as stated, refuted): a reply of one full 18-byte chunk whose name field
    starts with the byte [0xFF] yields no record: [list_drives] and [snapshot]
    raise [UnicodeDecodeError]. *)
Lemma named_value_array_invalid_name :
  let buf := Byte.xff :: repeat Byte.x00 17 in
  (length buf / 18 = 1)%nat /\
  fst (InstinctModel.list_drives (fresh [buf])) = Raise UnicodeDecodeError /\
  fst (PersonalityEngine.snapshot (fresh [buf])) = Raise UnicodeDecodeError.
Proof. cbv zeta. repeat split; reflexivity. Qed.

(** C6 (amended): for every reply buffer whose full 18-byte chunks carry
    ASCII-only name fields, [list_drives] and [snapshot] decode exactly
    [floor(len(buf) / 18)] records, the [k]-th from bytes [18k .. 18k+17], and
    store them in that order into the returned mapping (a name that comes again
    overwrites the value of its entry; [snapshot] rounds values to 4 digits);
    a trailing chunk shorter than 18 bytes is dropped without error.  With
    pairwise distinct names the mapping is the list of records itself. *)
Theorem named_value_array_decoding (raw : bytes) (rs : list bytes) (w : World) :
  replies (_unit w) = raw :: rs ->
  (forall c, In c (full_chunks 18 raw) ->
             forallb is_ascii_byte (slice c 0 16) = true) ->
  let records := map (named_value (fun v => v)) (full_chunks 18 raw) in
  let rounded := map (named_value round4) (full_chunks 18 raw) in
  length records = (length raw / 18)%nat /\
  length rounded = (length raw / 18)%nat /\
  (forall k, (k < length raw / 18)%nat ->
     nth k (full_chunks 18 raw) [] = slice raw (k * 18) (k * 18 + 18)) /\
  fst (InstinctModel.list_drives w) = Ok (dict_update [] records) /\
  _cache (snd (InstinctModel.list_drives w)) =
    dict_update (_cache w) (dict_update [] records) /\
  fst (PersonalityEngine.snapshot w) = Ok (dict_update [] rounded) /\
  (NoDup (map fst records) ->
     dict_update [] records = records /\ dict_update [] rounded = rounded).
Proof.
  intros Hr Ha records rounded.
  split; [unfold records; now rewrite length_map, length_full_chunks|].
  split; [unfold rounded; now rewrite length_map, length_full_chunks|].
  split; [intros k Hk; now apply nth_full_chunks|].
  rewrite (list_drives_reply raw rs w Hr), (snapshot_reply raw rs w Hr).
  rewrite !decode_all_ascii by exact Ha. cbn [fst snd _cache].
  split; [reflexivity|]. split; [reflexivity|]. split; [reflexivity|].
  intros Hnd. split; apply (dict_update_fresh _ []); cbn [app]; [exact Hnd|].
  unfold rounded. rewrite named_value_names.
  unfold records in Hnd. now rewrite named_value_names in Hnd.
Qed.

Lemma named_value_array_decoding_witness :
  let buf :=
    map byte_of_N (str_of_string "rest") ++ repeat Byte.x00 12 ++
    [Byte.x66; Byte.x66] ++
    map byte_of_N (str_of_string "play") ++ repeat Byte.x00 12 ++
    [Byte.xbf; Byte.xff] ++
    [Byte.x68; Byte.x75; Byte.x6e] in
  (length buf = 39)%nat /\
  fst (InstinctModel.list_drives (fresh [buf])) =
    Ok [(str_of_string "rest", inject_Z 0x6666 / 65535);
        (str_of_string "play", inject_Z 0xbfff / 65535)]%Q /\
  fst (PersonalityEngine.snapshot (fresh [buf])) =
    Ok [(str_of_string "rest", round4 (inject_Z 0x6666 / 65535));
        (str_of_string "play", round4 (inject_Z 0xbfff / 65535))]%Q.
Proof.
  intros buf. split; [reflexivity|].
  assert (Ha : forall c, In c (full_chunks 18 buf) ->
                         forallb is_ascii_byte (slice c 0 16) = true).
  { intros c [<-|[<-|[]]]; reflexivity. }
  destruct (named_value_array_decoding buf [] (fresh [buf]) eq_refl Ha)
    as (_ & _ & _ & H4 & _ & H6 & _).
  split; [exact H4 | exact H6].
Defined.

(** C9: name decoding is asymmetric.  Whatever bytes the reply holds, [recall]
    raises nothing: it returns one event per full 38-byte chunk, whose name is
    the 24-byte field without its trailing zero bytes, each byte above 0x7F
    replaced by U+FFFD.  But a byte above 0x7F in the name field of any full
    18-byte chunk makes [list_drives] and [snapshot] raise
    [UnicodeDecodeError]; the host cache is then left as it was. *)
Theorem name_decoding_asymmetry (limit : Z) (raw : bytes) (rs : list bytes)
  (w : World) :
  0 <= limit < 65536 ->
  replies (_unit w) = raw :: rs ->
  (exists events,
      fst (MemoryStore.recall limit w) = Ok events /\
      length events = (length raw / 38)%nat /\
      forall k, (k < length raw / 38)%nat ->
        MemoryStore.event (nth k events (episodic [])) =
        map (fun b => if is_ascii_byte b then Byte.to_N b
                      else REPLACEMENT_CHARACTER)
            (rstrip (slice (slice raw (k * 38) (k * 38 + 38)) 0 24))) /\
  ((exists k, (k < length raw / 18)%nat /\
      forallb is_ascii_byte
        (slice (slice raw (k * 18) (k * 18 + 18)) 0 16) = false) ->
   fst (InstinctModel.list_drives w) = Raise UnicodeDecodeError /\
   _cache (snd (InstinctModel.list_drives w)) = _cache w /\
   fst (PersonalityEngine.snapshot w) = Raise UnicodeDecodeError).
Proof.
  intros Hl Hr. split.
  - exists (map episodic (full_chunks 38 raw)).
    split; [now apply (recall_reply limit raw rs w)|].
    split; [now rewrite length_map, length_full_chunks|].
    intros k Hk. rewrite map_nth, nth_full_chunks by exact Hk. reflexivity.
  - intros (k & Hk & Hbad).
    assert (Hex : exists c, In c (full_chunks 18 raw) /\
                            forallb is_ascii_byte (slice c 0 16) = false).
    { exists (nth k (full_chunks 18 raw) []). split.
      - apply nth_In. now rewrite length_full_chunks.
      - now rewrite nth_full_chunks. }
    rewrite (list_drives_reply raw rs w Hr), (snapshot_reply raw rs w Hr).
    rewrite !decode_all_invalid by exact Hex. cbn. tauto.
Qed.

Lemma name_decoding_asymmetry_witness :
  let buf := [Byte.x66; Byte.xe9; Byte.x64] ++ repeat Byte.x00 35 in
  fst (MemoryStore.recall 16 (fresh [buf])) =
    Ok [episodic buf] /\
  MemoryStore.event (episodic buf) = [102; 0xFFFD; 100]%N /\
  fst (InstinctModel.list_drives (fresh [buf])) = Raise UnicodeDecodeError /\
  fst (PersonalityEngine.snapshot (fresh [buf])) = Raise UnicodeDecodeError.
Proof.
  intros buf.
  destruct (name_decoding_asymmetry 16 buf [] (fresh [buf])
              ltac:(lia) eq_refl) as [_ H2].
  destruct H2 as (H3 & _ & H4);
    [exists 0%nat; split; [cbv; lia | reflexivity]|].
  split; [reflexivity|].
  split; [reflexivity|split; [exact H3 | exact H4]].
Defined.

(** * Memory store *)

Lemma skipn_app_exact {A} (l r : list A) (n : nat) :
  length l = n -> skipn n (l ++ r) = r.
Proof.
  intros <-. rewrite skipn_app, Nat.sub_diag, skipn_all. reflexivity.
Qed.

Lemma name_field_fits_width (width : nat) (name : str) :
  is_ascii name = true -> (length name <= width)%nat ->
  name_field width name =
    Ok (map byte_of_N name ++ repeat Byte.x00 (width - length name)).
Proof.
  intros Ha Hl. rewrite name_field_ok by exact Ha. rewrite length_map.
  rewrite firstn_all2; [reflexivity|].
  rewrite length_app, length_map, repeat_length. lia.
Qed.

Lemma known_event_plain (event : str) :
  MemoryStore.known_event event = true ->
  is_ascii event = true /\ (length event <= 24)%nat /\ last event 1%N <> 0%N.
Proof.
  unfold MemoryStore.known_event. rewrite existsb_exists.
  intros (e & Hin & He). destruct (str_eq_dec e event) as [<-|]; [|discriminate].
  simpl in Hin.
  repeat (destruct Hin as [<-|Hin];
          [split; [reflexivity|split; [simpl; lia|discriminate]]|]).
  destruct Hin.
Qed.


(** ** [uid.encode()] *)

Lemma utf8_char_raise (c : N) (e : exn) :
  utf8_char c = Raise e -> e = UnicodeEncodeError /\ is_surrogate c = true.
Proof.
  unfold utf8_char.
  destruct (c <? 0x80)%N; [discriminate|].
  destruct (c <? 0x800)%N; [discriminate|].
  destruct (is_surrogate c).
  - intros H. split; congruence.
  - destruct (c <? 0x10000)%N; discriminate.
Qed.

Lemma utf8_char_surrogate (c : N) :
  is_surrogate c = true -> utf8_char c = Raise UnicodeEncodeError.
Proof.
  intros H. unfold utf8_char. rewrite H.
  unfold is_surrogate in H. apply andb_true_iff in H as [H1 H2].
  apply N.leb_le in H1.
  destruct (N.ltb_spec c 0x80); [lia|].
  destruct (N.ltb_spec c 0x800); [lia|]. reflexivity.
Qed.

(** A str can be encoded exactly when it holds no surrogate; the only error
    is [UnicodeEncodeError]. *)
Lemma utf8_encode_surrogate (s : str) :
  existsb is_surrogate s = true -> utf8_encode s = Raise UnicodeEncodeError.
Proof.
  induction s as [|c t IH]; [discriminate|].
  cbn [existsb utf8_encode]. intros H.
  destruct (is_surrogate c) eqn:Ec.
  - rewrite (utf8_char_surrogate c Ec). reflexivity.
  - cbn [orb] in H. rewrite (IH H).
    destruct (utf8_char c) as [b|e] eqn:E; [reflexivity|].
    apply utf8_char_raise in E as [-> _]. reflexivity.
Qed.

Lemma utf8_encode_no_surrogate (s : str) :
  existsb is_surrogate s = false -> exists m, utf8_encode s = Ok m.
Proof.
  induction s as [|c t IH]; [now exists []|].
  cbn [existsb utf8_encode]. intros H.
  apply orb_false_iff in H as [Hc Ht].
  destruct (IH Ht) as [r ->].
  destruct (utf8_char c) as [b|e] eqn:E; [now exists (b ++ r)|].
  apply utf8_char_raise in E as [_ E]. congruence.
Qed.

Lemma utf8_encode_raise (s : str) (e : exn) :
  utf8_encode s = Raise e -> e = UnicodeEncodeError.
Proof.
  intros H. destruct (existsb is_surrogate s) eqn:E.
  - rewrite utf8_encode_surrogate in H by exact E. congruence.
  - destruct (utf8_encode_no_surrogate s E) as [m Hm]. congruence.
Qed.

(** ** The 16-bit valence *)







Lemma py_int_nonpos (x : Q) : (x <= 0)%Q -> py_int x = Qceiling x.
Proof.
  destruct x as [n d]. unfold Qle, py_int, Qceiling, Qfloor, Qopp. simpl.
  intros H. rewrite Z.mul_1_r in H.
  rewrite <- (Z.opp_involutive n) at 1.
  rewrite Z.quot_opp_l by lia.
  rewrite Z.quot_div_nonneg by lia. reflexivity.
Qed.

(** [int(y)] fits 16 bits exactly when [-1 < y < 65536]. *)
Lemma py_int_u16 (y : Q) :
  (-1 < y /\ y < 65536)%Q -> 0 <= py_int y < 256 ^ Z.of_nat 2.
Proof.
  intros [Hlo Hhi]. change (256 ^ Z.of_nat 2) with 65536.
  destruct (Qlt_le_dec y 0) as [Hneg|Hpos].
  - rewrite py_int_nonpos by lra.
    pose proof (Qle_ceiling y) as H1.
    assert (H2 : Qceiling y <= 0).
    { assert (H : (y <= inject_Z 0)%Q) by (change (inject_Z 0) with 0%Q; lra).
      apply Qceiling_resp_le in H. now rewrite Qceiling_Z in H. }
    assert (H3 : (inject_Z (-1) < inject_Z (Qceiling y))%Q)
      by (change (inject_Z (-1)) with (-1)%Q; lra).
    rewrite <- Zlt_Qlt in H3. lia.
  - rewrite py_int_nonneg by exact Hpos.
    assert (H1 : (inject_Z 0 <= y)%Q) by (change (inject_Z 0) with 0%Q; lra).
    apply Qfloor_resp_le in H1. rewrite Qfloor_Z in H1.
    pose proof (Qfloor_le y) as H2.
    assert (H3 : (inject_Z (Qfloor y) < inject_Z 65536)%Q)
      by (change (inject_Z 65536) with 65536%Q; lra).
    rewrite <- Zlt_Qlt in H3. lia.
Qed.



(** The float [0x1.000200020002p+0] is below [1 + 2/65535], and its value
    does not fit either: the product rounds up to [65536.0]. *)
Lemma valence_code_rounds_up :
  (1 < Q_of_float 0x1.000200020002p+0 /\
   Q_of_float 0x1.000200020002p+0 < 1 + (2 # 65535))%Q /\
  valence_code (Q_of_float 0x1.000200020002p+0) = 65536 /\
  Qfloor ((Q_of_float 0x1.000200020002p+0 + 1) / 2 * 65535) = 65535.
Proof. repeat split; vm_compute; reflexivity. Qed.

Section MemoryStoreProps.

Variable sha256 : bytes -> bytes.
Hypothesis sha256_length : forall m, length (sha256 m) = 32%nat.


(** [encode] step by step, for a known event: the uid is hashed, then the
    valence and the timestamp are converted, then the record is sent. *)
Lemma encode_steps (event uid : str) (valence : Q) (timestamp : option Q)
  (w : World) :
  MemoryStore.known_event event = true ->
  MemoryStore.encode sha256 event uid valence timestamp w =
  match utf8_encode uid with
  | Raise e => (Raise e, w)
  | Ok m =>
      match to_bytes (valence_code valence) 2 with
      | Raise e => (Raise e, w)
      | Ok val_i16 =>
          match to_bytes (py_int (effective timestamp w)) 4 with
          | Raise e => (Raise e, w)
          | Ok ts_bytes =>
              (_ <- send_cmd MemoryStore.CMD_ENCODE
                      (event_field event ++ slice (sha256 m) 0 8 ++
                       val_i16 ++ ts_bytes) ;;
               ret tt) w
          end
      end
  end.
Proof.
  intros Hev. destruct (known_event_plain event Hev) as (Ha & Hl & _).
  unfold MemoryStore.encode. rewrite Hev. cbn [negb].
  assert (Ht : MemoryStore.timestamp_or_now timestamp w =
               (Ok (effective timestamp w), w)).
  { unfold MemoryStore.timestamp_or_now, effective, now, ret.
    destruct timestamp as [t|]; [destruct (Qeq_bool t 0)|]; reflexivity. }
  unfold bind at 1. rewrite Ht.
  unfold bind at 1, lift at 1.
  rewrite (name_field_fits_width 24 event Ha Hl).
  unfold bind at 1, lift at 1, MemoryStore._hash_uid.
  destruct (utf8_encode uid) as [m|e]; [|reflexivity].
  unfold bind at 1, lift at 1. fold (valence_code valence).
  destruct (to_bytes (valence_code valence) 2); [|reflexivity].
  unfold bind at 1, lift at 1.
  now destruct (to_bytes (py_int (effective timestamp w)) 4).
Qed.








(** C8 (amended): for every uid that can be UTF-8 encoded (no lone surrogate),
    when the unit answers the [TRUST] command with fewer than 2 bytes,
    [get_trust] returns exactly [0.0] and raises nothing; the command carries
    the first 8 bytes of the SHA-256 digest of the encoded uid.  For a uid
    that cannot be encoded, [get_trust] raises [UnicodeEncodeError] before
    anything is sent. *)
Theorem get_trust_short_reply_default (uid : str) (raw : bytes)
  (rs : list bytes) (w : World) :
  replies (_unit w) = raw :: rs ->
  (length raw < 2)%nat ->
  (forall m, utf8_encode uid = Ok m ->
     fst (MemoryStore.get_trust sha256 uid w) = Ok 0%Q /\
     wire (MemoryStore.get_trust sha256 uid w) =
       sent (_unit w) ++ [(MemoryStore.CMD_TRUST, slice (sha256 m) 0 8)]) /\
  (utf8_encode uid = Raise UnicodeEncodeError ->
   MemoryStore.get_trust sha256 uid w = (Raise UnicodeEncodeError, w)).
Proof.
  intros Hr Hlen.
  unfold wire, MemoryStore.get_trust, MemoryStore._hash_uid, bind, lift,
    send_cmd.
  split.
  - intros m ->. rewrite Hr. apply Nat.ltb_lt in Hlen. rewrite Hlen.
    split; reflexivity.
  - intros ->. reflexivity.
Qed.

(** C2 (the code at failing inputs): [encode] does not check the valence.
    With an encodable uid, just outside [-1, 1] the record is sent with the
    value field saturated ([0xFFFF] above, [0x0000] below); further out the
    conversion [to_bytes(2)] raises [OverflowError], not [ValueError]. *)
Theorem encode_valence_unchecked (uid : str) (m : bytes) :
  utf8_encode uid = Ok m ->
  MemoryStore.encode sha256 (str_of_string "fed") uid
      (1 + (1 # 65536)) (Some 1000%Q) (fresh [[]]) =
    (Ok tt,
     {| _unit :=
          {| sent :=
               [(MemoryStore.CMD_ENCODE,
                 map byte_of_N (str_of_string "fed") ++ repeat Byte.x00 21 ++
                 slice (sha256 m) 0 8 ++
                 [Byte.xff; Byte.xff] ++
                 [Byte.x00; Byte.x00; Byte.x03; Byte.xe8])];
             replies := [] |};
        _cache := []; time_time := 1700000000 |}) /\
  wire (MemoryStore.encode sha256 (str_of_string "fed") uid
          (- (1) - (1 # 65536)) (Some 1000%Q) (fresh [[]])) =
    [(MemoryStore.CMD_ENCODE,
      map byte_of_N (str_of_string "fed") ++ repeat Byte.x00 21 ++
      slice (sha256 m) 0 8 ++
      [Byte.x00; Byte.x00] ++
      [Byte.x00; Byte.x00; Byte.x03; Byte.xe8])] /\
  MemoryStore.encode sha256 (str_of_string "fed") uid
      1.5 (Some 1000%Q) (fresh [[]]) =
    (Raise OverflowError, fresh [[]]).
Proof.
  intros Hu.
  assert (Hev : MemoryStore.known_event (str_of_string "fed") = true)
    by reflexivity.
  assert (Et : to_bytes (py_int (effective (Some 1000%Q) (fresh [[]]))) 4 =
               Ok [Byte.x00; Byte.x00; Byte.x03; Byte.xe8])
    by (vm_compute; reflexivity).
  assert (E1 : to_bytes (valence_code (1 + (1 # 65536))) 2 =
               Ok [Byte.xff; Byte.xff]) by (vm_compute; reflexivity).
  assert (E2 : to_bytes (valence_code (- (1) - (1 # 65536))) 2 =
               Ok [Byte.x00; Byte.x00]) by (vm_compute; reflexivity).
  assert (E3 : to_bytes (valence_code 1.5) 2 = Raise OverflowError)
    by (vm_compute; reflexivity).
  rewrite !(encode_steps _ _ _ _ _ Hev), Hu, Et, E1, E2, E3.
  assert (Ef : event_field (str_of_string "fed") =
               map byte_of_N (str_of_string "fed") ++ repeat Byte.x00 21)
    by reflexivity.
  rewrite Ef, <- !app_assoc.
  split; [reflexivity|]. split; reflexivity.
Qed.

End MemoryStoreProps.

Lemma length_example_digest (m : bytes) : length (example_digest m) = 32%nat.
Proof.
  unfold example_digest.
  rewrite length_firstn, length_app, repeat_length. lia.
Qed.

Lemma utf8_alice :
  utf8_encode (str_of_string "alice") =
  Ok (map byte_of_N (str_of_string "alice")).
Proof. reflexivity. Qed.

Lemma encode_valence_unchecked_witness :
  wire (MemoryStore.encode example_digest (str_of_string "fed")
          (str_of_string "alice") (1 + (1 # 65536)) (Some 1000%Q)
          (fresh [[]])) =
    [(MemoryStore.CMD_ENCODE,
      map byte_of_N (str_of_string "fed") ++ repeat Byte.x00 21 ++
      slice (example_digest (map byte_of_N (str_of_string "alice"))) 0 8 ++
      [Byte.xff; Byte.xff] ++
      [Byte.x00; Byte.x00; Byte.x03; Byte.xe8])] /\
  MemoryStore.encode example_digest (str_of_string "fed")
      (str_of_string "alice") 1.5 (Some 1000%Q) (fresh [[]]) =
    (Raise OverflowError, fresh [[]]).
Proof.
  destruct (encode_valence_unchecked example_digest (str_of_string "alice")
              (map byte_of_N (str_of_string "alice")) utf8_alice)
    as (H1 & _ & H3).
  split; [|exact H3]. unfold wire. rewrite H1. reflexivity.
Defined.



(** C8 (as stated, refuted): the uid made of the lone surrogate U+D800 cannot
    be encoded; with a 1-byte reply pending, [get_trust] raises
    [UnicodeEncodeError] instead of returning [0.0], and nothing is sent. *)
Lemma get_trust_unencodable_uid :
  utf8_encode [0xD800%N] = Raise UnicodeEncodeError /\
  (length [Byte.x2a] < 2)%nat /\
  MemoryStore.get_trust example_digest [0xD800%N] (fresh [[Byte.x2a]]) =
    (Raise UnicodeEncodeError, fresh [[Byte.x2a]]) /\
  fst (MemoryStore.get_trust example_digest [0xD800%N] (fresh [[Byte.x2a]])) <>
    Ok 0%Q /\
  wire (MemoryStore.get_trust example_digest [0xD800%N] (fresh [[Byte.x2a]])) =
    [].
Proof.
  split; [reflexivity|]. split; [simpl; lia|]. split; [reflexivity|].
  split; [discriminate | reflexivity].
Qed.

Lemma get_trust_short_reply_default_witness :
  fst (MemoryStore.get_trust example_digest
         (str_of_string "unknown-uid") (fresh [[Byte.x2a]])) = Ok 0%Q /\
  MemoryStore.get_trust example_digest [0xDC00%N] (fresh [[Byte.x2a]]) =
    (Raise UnicodeEncodeError, fresh [[Byte.x2a]]).
Proof.
  assert (Hl : (length [Byte.x2a] < 2)%nat) by (simpl; lia).
  split.
  - destruct (get_trust_short_reply_default example_digest
                (str_of_string "unknown-uid") [Byte.x2a] []
                (fresh [[Byte.x2a]]) eq_refl Hl) as [H _].
    exact (proj1 (H (map byte_of_N (str_of_string "unknown-uid")) eq_refl)).
  - destruct (get_trust_short_reply_default example_digest
                [0xDC00%N] [Byte.x2a] []
                (fresh [[Byte.x2a]]) eq_refl Hl) as [_ H].
    exact (H eq_refl).
Defined.

(** * Further properties of the mapping, the quantiser and the rounding *)

Lemma dict_get_set_same (d : dict) (k : str) (v : Q) :
  dict_get (dict_set d k v) k = Some v.
Proof.
  induction d as [|[k' v'] t IH]; simpl.
  - destruct (str_eq_dec k k); [reflexivity|contradiction].
  - destruct (str_eq_dec k' k) as [E|E]; simpl.
    + destruct (str_eq_dec k' k); [reflexivity|contradiction].
    + destruct (str_eq_dec k' k); [contradiction|exact IH].
Qed.

Lemma dict_get_set_other (d : dict) (k k' : str) (v : Q) :
  k' <> k -> dict_get (dict_set d k v) k' = dict_get d k'.
Proof.
  intros Hne. induction d as [|[k0 v0] t IH]; simpl.
  - destruct (str_eq_dec k k'); [congruence|reflexivity].
  - destruct (str_eq_dec k0 k) as [E|E]; simpl.
    + subst k0. destruct (str_eq_dec k k'); [congruence|reflexivity].
    + destruct (str_eq_dec k0 k'); [reflexivity|exact IH].
Qed.

Lemma dict_get_absent (d : dict) (k : str) :
  ~ In k (map fst d) -> dict_get d k = None.
Proof.
  induction d as [|[k' v'] t IH]; simpl; intros H; [reflexivity|].
  destruct (str_eq_dec k' k); [tauto|]. apply IH. tauto.
Qed.

Lemma dict_set_keys (d : dict) (k : str) (v : Q) :
  map fst (dict_set d k v) =
  if in_dec str_eq_dec k (map fst d) then map fst d else map fst d ++ [k].
Proof.
  induction d as [|[k' v'] t IH]; simpl; [reflexivity|].
  destruct (str_eq_dec k' k) as [E|E]; simpl.
  - reflexivity.
  - rewrite IH. destruct (in_dec str_eq_dec k (map fst t)); reflexivity.
Qed.

Lemma dict_set_nodup (d : dict) (k : str) (v : Q) :
  NoDup (map fst d) -> NoDup (map fst (dict_set d k v)).
Proof.
  intros H. rewrite dict_set_keys.
  destruct (in_dec str_eq_dec k (map fst d)) as [Hin|Hin]; [exact H|].
  apply NoDup_app; [exact H | constructor; [intros []|constructor] |].
  intros x Hx [<-|[]]. contradiction.
Qed.

Lemma dict_update_nodup (other d : dict) :
  NoDup (map fst d) -> NoDup (map fst (dict_update d other)).
Proof.
  revert d. induction other as [|[k v] t IH]; intros d H; [exact H|].
  apply (IH (dict_set d k v)). now apply dict_set_nodup.
Qed.

Lemma dict_get_update (other d : dict) (k : str) :
  NoDup (map fst other) ->
  dict_get (dict_update d other) k =
  match dict_get other k with
  | Some v => Some v
  | None => dict_get d k
  end.
Proof.
  revert d. induction other as [|[k1 v1] t IH]; intros d Hnd; [reflexivity|].
  cbn [map fst] in Hnd. apply NoDup_cons_iff in Hnd as [Hk1 Hnd].
  change (dict_update d ((k1, v1) :: t)) with (dict_update (dict_set d k1 v1) t).
  rewrite IH by exact Hnd. cbn [dict_get].
  destruct (str_eq_dec k1 k) as [<-|Hne].
  - rewrite dict_get_absent by exact Hk1. apply dict_get_set_same.
  - rewrite dict_get_set_other by congruence. reflexivity.
Qed.

Lemma dict_set_forall (R : str * Q -> Prop) (d : dict) (k : str) (v : Q) :
  Forall R d -> R (k, v) -> Forall R (dict_set d k v).
Proof.
  intros Hd Hv. induction d as [|[k' v'] t IH]; simpl.
  - constructor; [exact Hv|constructor].
  - apply Forall_cons_iff in Hd as [H1 H2].
    destruct (str_eq_dec k' k) as [->|]; constructor; auto.
Qed.

Lemma length_dict_set (d : dict) (k : str) (v : Q) :
  (length (dict_set d k v) <= S (length d))%nat.
Proof.
  induction d as [|[k' v'] t IH]; simpl; [lia|].
  destruct (str_eq_dec k' k); simpl; lia.
Qed.

Lemma map_values_set (f : Q -> Q) (d : dict) (k : str) (v : Q) :
  map_values f (dict_set d k v) = dict_set (map_values f d) k (f v).
Proof.
  induction d as [|[k' v'] t IH]; simpl; [reflexivity|].
  destruct (str_eq_dec k' k); simpl; [reflexivity|]. now rewrite IH.
Qed.

(** ** Big-endian values *)

Lemma from_bytes_bound (l : bytes) :
  0 <= from_bytes l < 256 ^ Z.of_nat (length l).
Proof.
  induction l as [|x l IH] using rev_ind.
  - cbv. split; congruence.
  - rewrite from_bytes_snoc, length_app. cbn [length].
    replace (Z.of_nat (length l + 1)) with (Z.succ (Z.of_nat (length l))) by lia.
    rewrite Z.pow_succ_r by lia.
    pose proof (byte_val_range x). lia.
Qed.

Lemma from_bytes_u16 (l : bytes) :
  (length l <= 2)%nat -> 0 <= from_bytes l <= 65535.
Proof.
  intros H. pose proof (from_bytes_bound l) as Hb.
  assert (256 ^ Z.of_nat (length l) <= 256 ^ 2)
    by (apply Z.pow_le_mono_r; lia).
  lia.
Qed.

Lemma length_slice_le {A} (l : list A) (i s : nat) :
  (length (slice l i (i + s)) <= s)%nat.
Proof. rewrite length_slice. lia. Qed.

Lemma unit_of_u16 (u : Z) :
  0 <= u <= 65535 -> (0 <= inject_Z u / 65535 /\ inject_Z u / 65535 <= 1)%Q.
Proof.
  intros [H0 H1]. rewrite Qdiv_65535.
  assert (Ha : (inject_Z 0 <= inject_Z u)%Q) by (rewrite <- Zle_Qle; lia).
  assert (Hb : (inject_Z u <= inject_Z 65535)%Q) by (rewrite <- Zle_Qle; lia).
  change (inject_Z 0) with 0%Q in Ha. change (inject_Z 65535) with 65535%Q in Hb.
  split; lra.
Qed.

Lemma decode_u16_range (raw : bytes) :
  (0 <= decode_u16 raw /\ decode_u16 raw <= 1)%Q.
Proof.
  unfold decode_u16. apply unit_of_u16, from_bytes_u16.
  apply (length_slice_le raw 0 2).
Qed.

(** ** Rounding *)

Lemma Qdiv_10000 (x : Q) : (x / 10000 == x * (1 # 10000))%Q.
Proof. reflexivity. Qed.

Lemma round4_near (x : Q) : (Qabs (round4 x - x) <= 1 # 20000)%Q.
Proof.
  unfold round4. destruct (py_round_near (x * 10000)) as [H1 H2].
  apply Qabs_Qle_condition. rewrite Qdiv_10000. split; lra.
Qed.

Lemma round4_range (x : Q) (a b : Z) :
  (inject_Z a <= x /\ x <= inject_Z b)%Q ->
  (inject_Z a <= round4 x /\ round4 x <= inject_Z b)%Q.
Proof.
  intros [Ha Hb]. unfold round4. rewrite Qdiv_10000.
  assert (H1 : a * 10000 <= py_round (x * 10000)).
  { apply py_round_ge. rewrite inject_Z_mult.
    change (inject_Z 10000) with 10000%Q. lra. }
  assert (H2 : py_round (x * 10000) <= b * 10000).
  { apply py_round_le. rewrite inject_Z_mult.
    change (inject_Z 10000) with 10000%Q. lra. }
  rewrite Zle_Qle, inject_Z_mult in H1, H2.
  change (inject_Z 10000) with 10000%Q in H1, H2. split; lra.
Qed.

(** * Drives: successful writes, failures, reads *)

Lemma name_field_fits (name : str) :
  is_ascii name = true -> (length name <= 16)%nat ->
  name_field 16 name =
    Ok (map byte_of_N name ++ repeat Byte.x00 (16 - length name)).
Proof. apply name_field_fits_width. Qed.

Lemma name_field_non_ascii (width : nat) (name : str) :
  is_ascii name = false -> name_field width name = Raise UnicodeEncodeError.
Proof. intros H. unfold name_field, encode_ascii. now rewrite H. Qed.

(** X1: a [set_drive] with an ASCII name and a weight in [0, 1], answered by
    the unit, sends exactly one command (the 16-byte name field followed by
    [int(weight * 65535)] as two big-endian bytes), consumes exactly one
    reply, and leaves the cache mapping the name to the weight itself (not to
    its quantised value), every other entry being as before. *)
Theorem set_drive_stores_weight (name : str) (nb : bytes) (v : Q) (r : bytes)
  (rs : list bytes) (w : World) :
  (0 <= v /\ v <= 1)%Q ->
  name_field 16 name = Ok nb ->
  replies (_unit w) = r :: rs ->
  let w' := snd (InstinctModel.set_drive name v w) in
  fst (InstinctModel.set_drive name v w) = Ok tt /\
  sent (_unit w') =
    sent (_unit w) ++
    [(InstinctModel.CMD_SET_DRIVE, nb ++ be_digits 2 (quantise v))] /\
  replies (_unit w') = rs /\
  dict_get (_cache w') name = Some v /\
  (forall k, k <> name -> dict_get (_cache w') k = dict_get (_cache w) k).
Proof.
  intros Hv Hn Hr. cbv zeta.
  rewrite (set_drive_in_range name v w nb Hv Hn).
  unfold bind, send_cmd, cache_set. rewrite Hr. cbn.
  split; [reflexivity|]. split; [reflexivity|]. split; [reflexivity|].
  split; [apply dict_get_set_same|].
  intros k Hk. now apply dict_get_set_other.
Qed.

Lemma set_drive_stores_weight_witness :
  let w' := snd (InstinctModel.set_drive (str_of_string "play") 0.75
                   {| _unit := {| sent := []; replies := [[]] |};
                      _cache := [(str_of_string "rest", 0.4%Q)];
                      time_time := 0 |}) in
  dict_get (_cache w') (str_of_string "play") = Some 0.75%Q /\
  dict_get (_cache w') (str_of_string "rest") = Some 0.4%Q.
Proof.
  destruct (set_drive_stores_weight (str_of_string "play")
              (map byte_of_N (str_of_string "play") ++ repeat Byte.x00 12)
              0.75 [] []
              {| _unit := {| sent := []; replies := [[]] |};
                 _cache := [(str_of_string "rest", 0.4%Q)];
                 time_time := 0 |}
              ltac:(split; discriminate) eq_refl eq_refl)
    as (_ & _ & _ & H4 & H5).
  split; [exact H4|].
  rewrite (H5 (str_of_string "rest") ltac:(discriminate)). reflexivity.
Defined.

(** X2: when the unit gives no reply, [set_drive] (with a weight in [0, 1]),
    [get_drive] and [list_drives] raise [TransportError] after putting their
    one command on the wire ([set_drive]: the name field followed by
    [int(weight * 65535)]); there is no second attempt and the cache is left
    as it was. *)
Theorem transport_failure_leaves_cache (name : str) (nb : bytes) (v : Q)
  (w : World) :
  (0 <= v /\ v <= 1)%Q ->
  name_field 16 name = Ok nb ->
  replies (_unit w) = [] ->
  (fst (InstinctModel.set_drive name v w) = Raise TransportError /\
   wire (InstinctModel.set_drive name v w) =
     sent (_unit w) ++
     [(InstinctModel.CMD_SET_DRIVE, nb ++ be_digits 2 (quantise v))] /\
   _cache (snd (InstinctModel.set_drive name v w)) = _cache w) /\
  (fst (InstinctModel.get_drive name w) = Raise TransportError /\
   wire (InstinctModel.get_drive name w) =
     sent (_unit w) ++ [(InstinctModel.CMD_GET_DRIVE, nb)] /\
   _cache (snd (InstinctModel.get_drive name w)) = _cache w) /\
  (fst (InstinctModel.list_drives w) = Raise TransportError /\
   wire (InstinctModel.list_drives w) =
     sent (_unit w) ++ [(InstinctModel.CMD_LIST_DRIVES, [])] /\
   _cache (snd (InstinctModel.list_drives w)) = _cache w).
Proof.
  intros Hv Hn Hr. split; [|split].
  - rewrite (set_drive_in_range name v w nb Hv Hn).
    unfold wire, bind, send_cmd. rewrite Hr. cbn. tauto.
  - unfold wire, InstinctModel.get_drive, bind, lift, send_cmd.
    rewrite Hn, Hr. cbn. tauto.
  - unfold wire, InstinctModel.list_drives, bind, send_cmd.
    rewrite Hr. cbn. tauto.
Qed.

Lemma transport_failure_leaves_cache_witness :
  fst (InstinctModel.set_drive (str_of_string "rest") 0.4 (fresh [])) =
    Raise TransportError /\
  _cache (snd (InstinctModel.set_drive (str_of_string "rest") 0.4 (fresh []))) =
    [].
Proof.
  destruct (transport_failure_leaves_cache (str_of_string "rest")
              (map byte_of_N (str_of_string "rest") ++ repeat Byte.x00 12)
              0.4 (fresh []) ltac:(split; discriminate) eq_refl eq_refl)
    as ((H1 & _ & H3) & _).
  split; [exact H1 | exact H3].
Defined.

(** X3: a name with a character above U+007F is refused before any I/O:
    [get_drive] and the trait [get], and [set_drive] and [set] with a value in
    range, raise [UnicodeEncodeError] and leave the wire and the cache
    untouched. *)
Theorem non_ascii_name_rejected (name : str) (v : Q) (w : World) :
  is_ascii name = false ->
  (0 <= v /\ v <= 1)%Q ->
  InstinctModel.get_drive name w = (Raise UnicodeEncodeError, w) /\
  PersonalityEngine.get name w = (Raise UnicodeEncodeError, w) /\
  InstinctModel.set_drive name v w = (Raise UnicodeEncodeError, w) /\
  PersonalityEngine.set name v w = (Raise UnicodeEncodeError, w).
Proof.
  intros Ha Hv.
  pose proof (name_field_non_ascii 16 name Ha) as Hn.
  pose proof (proj2 (in_unit_range_true v) Hv) as Hr.
  unfold InstinctModel.get_drive, PersonalityEngine.get,
    InstinctModel.set_drive, PersonalityEngine.set, bind, lift.
  rewrite Hn, Hr. cbn. tauto.
Qed.

Lemma non_ascii_name_rejected_witness :
  InstinctModel.set_drive [99; 0xE9]%N 0.5 (fresh [[]]) =
    (Raise UnicodeEncodeError, fresh [[]]).
Proof.
  exact (proj1 (proj2 (proj2
    (non_ascii_name_rejected [99; 0xE9]%N 0.5 (fresh [[]]) eq_refl
       ltac:(split; discriminate))))).
Defined.

(** X4: whatever the unit answers, [get_drive] and the trait [get] return a
    value in [0, 1] that depends on the first two bytes of the reply only; for
    a reply [b0 b1 ...] it is [(256 * b0 + b1) / 65535], and [get_drive] leaves
    it in the cache under the name. *)
Theorem get_drive_reads_two_bytes (name : str) (nb raw : bytes)
  (rs : list bytes) (w : World) :
  name_field 16 name = Ok nb ->
  replies (_unit w) = raw :: rs ->
  exists val,
    fst (InstinctModel.get_drive name w) = Ok val /\
    fst (PersonalityEngine.get name w) = Ok val /\
    (0 <= val /\ val <= 1)%Q /\
    dict_get (_cache (snd (InstinctModel.get_drive name w))) name = Some val /\
    wire (InstinctModel.get_drive name w) =
      sent (_unit w) ++ [(InstinctModel.CMD_GET_DRIVE, nb)] /\
    (forall b0 b1 rest, raw = b0 :: b1 :: rest ->
       val = (inject_Z (256 * byte_val b0 + byte_val b1) / 65535)%Q).
Proof.
  intros Hn Hr. exists (decode_u16 raw).
  rewrite (get_drive_reply name nb raw rs w Hn Hr).
  rewrite (get_reply name nb raw rs w Hn Hr). cbn [fst snd _cache].
  split; [reflexivity|]. split; [reflexivity|].
  split; [apply decode_u16_range|].
  split; [apply dict_get_set_same|]. split; [reflexivity|].
  intros b0 b1 rest ->. unfold decode_u16. rewrite slice_0.
  cbn [firstn]. unfold from_bytes. cbn [fold_left].
  replace ((0 * 256 + byte_val b0) * 256 + byte_val b1)
    with (256 * byte_val b0 + byte_val b1) by lia.
  reflexivity.
Qed.

Lemma get_drive_reads_two_bytes_witness :
  fst (InstinctModel.get_drive (str_of_string "hunger")
         (fresh [[Byte.x80; Byte.x00; Byte.xff]])) =
    Ok (inject_Z 32768 / 65535)%Q.
Proof.
  destruct (get_drive_reads_two_bytes (str_of_string "hunger")
              (map byte_of_N (str_of_string "hunger") ++ repeat Byte.x00 10)
              [Byte.x80; Byte.x00; Byte.xff] []
              (fresh [[Byte.x80; Byte.x00; Byte.xff]]) eq_refl eq_refl)
    as (val & H1 & _ & _ & _ & _ & H6).
  rewrite H1. f_equal. apply (H6 Byte.x80 Byte.x00 [Byte.xff] eq_refl).
Defined.

(** * Record arrays: what the result looks like *)

Lemma rstrip_last (l : bytes) : last (rstrip l) Byte.x01 <> Byte.x00.
Proof.
  induction l as [|x t IH]; simpl; [discriminate|].
  destruct (rstrip t) as [|y t'] eqn:E.
  - destruct (is_nul x) eqn:Ex; simpl; [discriminate|].
    intros ->. discriminate.
  - exact IH.
Qed.

Lemma length_rstrip (l : bytes) : (length (rstrip l) <= length l)%nat.
Proof.
  destruct (rstrip_spec l) as [k H]. rewrite H at 2.
  rewrite length_app. lia.
Qed.

Lemma to_N_zero (b : byte) : Byte.to_N b = 0%N -> b = Byte.x00.
Proof.
  intros H. pose proof (Byte.of_to_N b) as E. rewrite H in E.
  cbn in E. congruence.
Qed.

Lemma last_map_to_N (l : bytes) :
  last (map Byte.to_N l) 1%N = Byte.to_N (last l Byte.x01).
Proof.
  induction l as [|x t IH]; [reflexivity|].
  destruct t as [|y t']; [reflexivity|]. exact IH.
Qed.

Lemma is_ascii_map_to_N (l : bytes) :
  is_ascii (map Byte.to_N l) = forallb is_ascii_byte l.
Proof.
  unfold is_ascii. induction l as [|x t IH]; simpl; [reflexivity|].
  now rewrite IH.
Qed.

Lemma named_value_wellformed (post : Q -> Q) (c : bytes) :
  (forall x, (0 <= x /\ x <= 1)%Q -> (0 <= post x /\ post x <= 1)%Q) ->
  forallb is_ascii_byte (slice c 0 16) = true ->
  wellformed_entry (named_value post c).
Proof.
  intros Hpost Ha. unfold wellformed_entry, named_value. cbn [fst snd].
  split; [now rewrite is_ascii_map_to_N, ascii_rstrip|].
  split.
  { rewrite length_map. pose proof (length_rstrip (slice c 0 16)) as H1.
    pose proof (length_slice_le c 0 16) as H2.
    exact (Nat.le_trans _ _ _ H1 H2). }
  split.
  { rewrite last_map_to_N. intros H. apply to_N_zero in H.
    now apply rstrip_last in H. }
  apply Hpost, unit_of_u16, from_bytes_u16.
  apply (length_slice_le c 16 2).
Qed.

Lemma decode_all_wellformed (post : Q -> Q) (chunks : list bytes) :
  (forall x, (0 <= x /\ x <= 1)%Q -> (0 <= post x /\ post x <= 1)%Q) ->
  forall d r,
    decode_all post chunks d = Ok r ->
    NoDup (map fst d) -> Forall wellformed_entry d ->
    NoDup (map fst r) /\ Forall wellformed_entry r /\
    (length r <= length d + length chunks)%nat.
Proof.
  intros Hpost. induction chunks as [|c cs IH]; intros d r Hrun Hnd Hwf.
  - injection Hrun as <-. simpl. repeat split; auto. lia.
  - cbn [decode_all] in Hrun.
    destruct (forallb is_ascii_byte (slice c 0 16)) eqn:Ha; [|discriminate].
    apply IH in Hrun.
    + destruct Hrun as (H1 & H2 & H3). repeat split; auto.
      pose proof (length_dict_set d (fst (named_value post c))
                    (snd (named_value post c))).
      cbn [length]. lia.
    + now apply dict_set_nodup.
    + apply dict_set_forall; [exact Hwf|].
      rewrite <- surjective_pairing. now apply named_value_wellformed.
Qed.

Lemma round4_unit (x : Q) :
  (0 <= x /\ x <= 1)%Q -> (0 <= round4 x /\ round4 x <= 1)%Q.
Proof. intros H. apply (round4_range x 0 1). exact H. Qed.

Lemma list_drives_decoded (raw : bytes) (rs : list bytes) (w : World)
  (result : dict) :
  replies (_unit w) = raw :: rs ->
  fst (InstinctModel.list_drives w) = Ok result ->
  decode_all (fun v => v) (full_chunks 18 raw) [] = Ok result.
Proof.
  intros Hr H. rewrite (list_drives_reply raw rs w Hr) in H.
  destruct (decode_all _ _ _); [exact H|discriminate H].
Qed.

(** X5: whatever [list_drives] or [snapshot] returns is a well-formed mapping:
    names are pairwise distinct, ASCII, at most 16 characters long and never
    end in NUL, every value lies in [0, 1], and there are at most
    [floor(len(reply) / 18)] entries. *)
Theorem named_value_result_wellformed (raw : bytes) (rs : list bytes)
  (w : World) (result : dict) :
  replies (_unit w) = raw :: rs ->
  fst (InstinctModel.list_drives w) = Ok result \/
  fst (PersonalityEngine.snapshot w) = Ok result ->
  NoDup (map fst result) /\
  Forall wellformed_entry result /\
  (length result <= length raw / 18)%nat.
Proof.
  intros Hr Hres.
  assert (H : exists post,
             (forall x, (0 <= x /\ x <= 1)%Q -> (0 <= post x /\ post x <= 1)%Q) /\
             decode_all post (full_chunks 18 raw) [] = Ok result).
  { destruct Hres as [H|H].
    - exists (fun v => v). split; [auto|].
      now apply (list_drives_decoded raw rs w).
    - exists round4. split; [apply round4_unit|].
      now rewrite (snapshot_reply raw rs w Hr) in H. }
  destruct H as (post & Hpost & Hrun).
  apply (decode_all_wellformed post _ Hpost) in Hrun;
    [|constructor|constructor].
  rewrite length_full_chunks in Hrun. exact Hrun.
Qed.

Lemma named_value_result_wellformed_witness :
  let buf := repeat Byte.x61 16 ++ [Byte.xff; Byte.xff] ++
             repeat Byte.x61 16 ++ [Byte.x00; Byte.x01] in
  exists result,
    fst (InstinctModel.list_drives (fresh [buf])) = Ok result /\
    NoDup (map fst result) /\ (length result <= 2)%nat.
Proof.
  intros buf. eexists. split; [reflexivity|].
  destruct (named_value_result_wellformed buf [] (fresh [buf]) _ eq_refl
              (or_introl eq_refl)) as (H1 & _ & H3).
  split; [exact H1 | exact H3].
Defined.

(** X6: after a successful [list_drives] the cache holds, for every name, the
    value just returned for it if there is one, and otherwise what it held
    before. *)
Theorem list_drives_merges_cache (raw : bytes) (rs : list bytes) (w : World)
  (result : dict) :
  replies (_unit w) = raw :: rs ->
  fst (InstinctModel.list_drives w) = Ok result ->
  forall k,
    dict_get (_cache (snd (InstinctModel.list_drives w))) k =
    match dict_get result k with
    | Some v => Some v
    | None => dict_get (_cache w) k
    end.
Proof.
  intros Hr Hres k.
  pose proof (list_drives_decoded raw rs w result Hr Hres) as Hrun.
  destruct (decode_all_wellformed (fun v => v) _ ltac:(auto) [] result Hrun
              ltac:(constructor) ltac:(constructor)) as (Hnd & _ & _).
  rewrite (list_drives_reply raw rs w Hr), Hrun. cbn [snd _cache].
  now apply dict_get_update.
Qed.

Lemma list_drives_merges_cache_witness :
  let buf := map byte_of_N (str_of_string "rest") ++ repeat Byte.x00 12 ++
             [Byte.xff; Byte.xff] in
  let w := {| _unit := {| sent := []; replies := [buf] |};
              _cache := [(str_of_string "rest", 0.4%Q);
                         (str_of_string "play", 0.75%Q)];
              time_time := 0 |} in
  dict_get (_cache (snd (InstinctModel.list_drives w))) (str_of_string "rest") =
    Some (inject_Z 65535 / 65535)%Q /\
  dict_get (_cache (snd (InstinctModel.list_drives w))) (str_of_string "play") =
    Some 0.75%Q.
Proof.
  intros buf w.
  pose proof (list_drives_merges_cache buf [] w _ eq_refl eq_refl) as H.
  split; [exact (H (str_of_string "rest")) | exact (H (str_of_string "play"))].
Defined.

(** * [snapshot] against [list_drives] *)

Lemma named_value_post (post : Q -> Q) (c : bytes) :
  named_value post c =
  (fst (named_value (fun v => v) c), post (snd (named_value (fun v => v) c))).
Proof. reflexivity. Qed.

Lemma decode_all_post (post : Q -> Q) (chunks : list bytes) (d : dict) :
  decode_all post chunks (map_values post d) =
  match decode_all (fun v => v) chunks d with
  | Ok r => Ok (map_values post r)
  | Raise e => Raise e
  end.
Proof.
  revert d. induction chunks as [|c cs IH]; intros d; [reflexivity|].
  cbn [decode_all].
  destruct (forallb is_ascii_byte (slice c 0 16)); [|reflexivity].
  rewrite <- IH, map_values_set. reflexivity.
Qed.

(** X7: on the same reply bytes, [snapshot] returns what [list_drives]
    returns with every value rounded to 4 decimals (same names, same order),
    and fails exactly when [list_drives] fails, with the same error; a rounded
    value is within 0.00005 of the unrounded one. *)
Theorem snapshot_rounds_list_drives (raw : bytes) (rs : list bytes) (w : World) :
  replies (_unit w) = raw :: rs ->
  fst (PersonalityEngine.snapshot w) =
    match fst (InstinctModel.list_drives w) with
    | Ok result => Ok (map_values round4 result)
    | Raise e => Raise e
    end /\
  (forall result k v,
      fst (InstinctModel.list_drives w) = Ok result ->
      dict_get result k = Some v ->
      dict_get (map_values round4 result) k = Some (round4 v) /\
      (Qabs (round4 v - v) <= 1 # 20000)%Q).
Proof.
  intros Hr. split.
  - rewrite (snapshot_reply raw rs w Hr), (list_drives_reply raw rs w Hr).
    change (@nil (str * Q)) with (map_values round4 []) at 1.
    rewrite decode_all_post. now destruct (decode_all _ _ _).
  - intros result k v _ Hk. split; [|apply round4_near].
    induction result as [|[k' v'] t IH]; [discriminate|].
    simpl in *. destruct (str_eq_dec k' k); [congruence|auto].
Qed.

Lemma snapshot_rounds_list_drives_witness :
  let buf := map byte_of_N (str_of_string "bold") ++ repeat Byte.x00 12 ++
             [Byte.x80; Byte.x00] in
  fst (PersonalityEngine.snapshot (fresh [buf])) =
    Ok [(str_of_string "bold", 0.5000%Q)].
Proof.
  intros buf.
  rewrite (proj1 (snapshot_rounds_list_drives buf [] (fresh [buf]) eq_refl)).
  reflexivity.
Defined.

(** * Records written by [set_drive] and read by [list_drives] *)

Lemma rstrip_ascii_name (n : str) :
  is_ascii n = true -> last n 1%N <> 0%N ->
  map Byte.to_N (rstrip (map byte_of_N n)) = n.
Proof.
  intros Ha Hlast. destruct (ascii_bytes_of_str n Ha) as [_ Hm].
  destruct (rstrip_spec (map byte_of_N n)) as [k Hk].
  assert (E : map Byte.to_N (rstrip (map byte_of_N n)) ++ repeat 0%N k = n).
  { rewrite <- Hm at 2. rewrite Hk at 2.
    now rewrite map_app, map_repeat. }
  destruct k as [|k].
  - simpl in E. now rewrite app_nil_r in E.
  - exfalso. apply Hlast. rewrite <- E. apply last_repeat_nul.
Qed.

Lemma length_named_record (n : str) (v : Q) :
  (length n <= 16)%nat -> length (named_record n v) = 18%nat.
Proof.
  intros H. unfold named_record.
  rewrite !length_app, length_map, repeat_length, length_be_digits. lia.
Qed.

Lemma named_record_name_field (n : str) (v : Q) :
  (length n <= 16)%nat ->
  slice (named_record n v) 0 16 =
  map byte_of_N n ++ repeat Byte.x00 (16 - length n).
Proof.
  intros H. unfold named_record. rewrite slice_0.
  apply firstn_app_exact.
  rewrite length_app, length_map, repeat_length. lia.
Qed.

Lemma named_value_record (post : Q -> Q) (n : str) (v : Q) :
  plain_name n -> (0 <= v /\ v <= 1)%Q ->
  forallb is_ascii_byte (slice (named_record n v) 0 16) = true /\
  named_value post (named_record n v) =
    (n, post (inject_Z (quantise v) / 65535)%Q).
Proof.
  intros (Ha & Hl & Hlast) Hv.
  destruct (ascii_bytes_of_str n Ha) as [Hb _].
  split.
  - rewrite named_record_name_field by exact Hl.
    rewrite forallb_app, Hb. now apply forallb_repeat.
  - unfold named_value. rewrite named_record_name_field by exact Hl.
    rewrite rstrip_app_nuls. rewrite rstrip_ascii_name by assumption.
    do 4 f_equal. unfold named_record, slice.
    rewrite skipn_app_exact
      by (rewrite length_app, length_map, repeat_length; lia).
    rewrite firstn_all2 by (rewrite length_be_digits; lia).
    apply from_bytes_to_bytes. now apply unit_quantum_range.
Qed.

Lemma full_chunks_cons (r raw : bytes) :
  length r = 18%nat ->
  full_chunks 18 (r ++ raw) = r :: full_chunks 18 raw.
Proof.
  intros Hr. unfold full_chunks. rewrite length_app, Hr.
  replace ((18 + length raw) / 18)%nat with (S (length raw / 18)).
  2:{ replace (18 + length raw)%nat with (1 * 18 + length raw)%nat by lia.
      rewrite Nat.div_add_l by lia. reflexivity. }
  cbn [seq map]. f_equal.
  - unfold chunk_at. cbn [Nat.mul Nat.add]. rewrite slice_0.
    now apply firstn_app_exact.
  - rewrite <- seq_shift, map_map. apply map_ext. intros k.
    unfold chunk_at, slice.
    replace (S k * 18 + 18 - S k * 18)%nat with 18%nat by lia.
    replace (k * 18 + 18 - k * 18)%nat with 18%nat by lia.
    replace (S k * 18)%nat with (18 + k * 18)%nat by lia.
    rewrite skipn_app, Hr, skipn_all2 by lia.
    replace (18 + k * 18 - 18)%nat with (k * 18)%nat by lia. reflexivity.
Qed.

Lemma full_chunks_concat (recs : list bytes) (tail : bytes) :
  Forall (fun r => length r = 18%nat) recs ->
  (length tail < 18)%nat ->
  full_chunks 18 (concat recs ++ tail) = recs.
Proof.
  intros Hrecs Ht. induction Hrecs as [|r recs Hr _ IH].
  - unfold full_chunks. cbn [concat app].
    now rewrite Nat.div_small by exact Ht.
  - cbn [concat]. rewrite <- app_assoc, full_chunks_cons by exact Hr.
    now rewrite IH.
Qed.

(** X8: [set_drive] sends the 18-byte record of its name and weight; a
    [LIST_DRIVES] reply made of such records (names ASCII, at most 16
    characters, not ending in NUL; weights in [0, 1]), followed by fewer than
    18 stray bytes, is read back by [list_drives] as the same names in the same
    order, each with its weight quantised to [int(w * 65535) / 65535] (the
    binary64 product, truncated), a later record of a name replacing the value
    of the earlier one. *)
Theorem list_drives_reads_set_drive_records (items : list (str * Q))
  (tail : bytes) (rs : list bytes) (w : World) :
  Forall (fun kv => plain_name (fst kv) /\ (0 <= snd kv /\ snd kv <= 1)%Q)
         items ->
  (length tail < 18)%nat ->
  replies (_unit w) =
    (concat (map (fun kv => named_record (fst kv) (snd kv)) items) ++ tail)
    :: rs ->
  (forall kv w0, In kv items ->
     wire (InstinctModel.set_drive (fst kv) (snd kv) w0) =
     sent (_unit w0) ++
     [(InstinctModel.CMD_SET_DRIVE, named_record (fst kv) (snd kv))]) /\
  fst (InstinctModel.list_drives w) =
    Ok (dict_update [] (map quantised items)).
Proof.
  intros Hitems Htail Hr. split.
  - intros [n v] w0 Hin. cbn [fst snd].
    rewrite Forall_forall in Hitems.
    destruct (Hitems _ Hin) as [(Ha & Hl & _) Hv]. cbn [fst snd] in *.
    rewrite (set_drive_in_range n v w0 _ Hv (name_field_fits n Ha Hl)).
    now apply wire_bind_send.
  - rewrite (list_drives_reply _ rs w Hr).
    rewrite full_chunks_concat; [|
      apply Forall_map; revert Hitems; apply Forall_impl;
      intros [n v] [(_ & Hl & _) _]; now apply length_named_record |
      exact Htail].
    rewrite decode_all_ascii.
    + cbn [fst]. do 2 f_equal. rewrite map_map. apply map_ext_in.
      intros [n v] Hin. rewrite Forall_forall in Hitems.
      destruct (Hitems _ Hin) as [Hn Hv].
      now apply (named_value_record (fun x => x)).
    + intros c Hc. apply in_map_iff in Hc as ([n v] & <- & Hin).
      rewrite Forall_forall in Hitems.
      destruct (Hitems _ Hin) as [Hn Hv].
      now apply (named_value_record (fun x => x)).
Qed.

Lemma list_drives_reads_set_drive_records_witness :
  fst (InstinctModel.list_drives
         (fresh [named_record (str_of_string "social") 0.85 ++
                 named_record (str_of_string "rest") 0.4 ++ [Byte.x07]])) =
    Ok [(str_of_string "social", inject_Z 55704 / 65535);
        (str_of_string "rest", inject_Z 26214 / 65535)]%Q.
Proof.
  pose proof (list_drives_reads_set_drive_records
                [(str_of_string "social", 0.85%Q); (str_of_string "rest", 0.4%Q)]
                [Byte.x07] []
                (fresh [named_record (str_of_string "social") 0.85 ++
                        named_record (str_of_string "rest") 0.4 ++ [Byte.x07]]))
    as H.
  destruct H as [_ H].
  - repeat constructor; try discriminate; simpl; lia.
  - simpl. lia.
  - reflexivity.
  - exact H.
Defined.

(** * Sequences of writes: [load_defaults] and [load] *)

Lemma with_link_id (w : World) :
  with_link w (sent (_unit w)) (replies (_unit w)) (_cache w) = w.
Proof. now destruct w as [[s r] c t]. Qed.

Lemma set_drive_run (kv : str * Q) (w : World) :
  valid_item kv ->
  InstinctModel.set_drive (fst kv) (snd kv) w =
  match replies (_unit w) with
  | [] =>
      (Raise TransportError,
       with_link w (sent (_unit w) ++ [drive_cmd kv]) [] (_cache w))
  | r :: rs =>
      (Ok tt,
       with_link w (sent (_unit w) ++ [drive_cmd kv]) rs
         (dict_set (_cache w) (fst kv) (snd kv)))
  end.
Proof.
  intros (Ha & Hl & Hv).
  rewrite (set_drive_in_range _ _ w _ Hv (name_field_fits _ Ha Hl)).
  unfold bind, send_cmd, cache_set. now destruct (replies (_unit w)).
Qed.

Lemma set_run (kv : str * Q) (w : World) :
  valid_item kv ->
  PersonalityEngine.set (fst kv) (snd kv) w =
  match replies (_unit w) with
  | [] =>
      (Raise TransportError,
       with_link w (sent (_unit w) ++ [trait_cmd kv]) [] (_cache w))
  | r :: rs =>
      (Ok tt, with_link w (sent (_unit w) ++ [trait_cmd kv]) rs (_cache w))
  end.
Proof.
  intros (Ha & Hl & Hv).
  rewrite (set_in_range _ _ w _ Hv (name_field_fits _ Ha Hl)).
  unfold bind, send_cmd, ret. now destruct (replies (_unit w)).
Qed.

Lemma load_defaults_loop_ok (items : dict) :
  Forall valid_item items ->
  forall w,
    (length items <= length (replies (_unit w)))%nat ->
    InstinctModel.load_defaults_loop items w =
    (Ok tt,
     with_link w (sent (_unit w) ++ map drive_cmd items)
       (skipn (length items) (replies (_unit w)))
       (dict_update (_cache w) items)).
Proof.
  induction 1 as [|[n v] items Hkv _ IH]; intros w Hlen.
  - cbn. now rewrite app_nil_r, with_link_id.
  - cbn [InstinctModel.load_defaults_loop]. unfold bind.
    pose proof (set_drive_run (n, v) w Hkv) as E. cbn [fst snd] in E.
    rewrite E. clear E.
    destruct (replies (_unit w)) as [|r rs]; [simpl in Hlen; lia|].
    rewrite IH by (simpl in *; lia).
    cbn. now rewrite <- app_assoc.
Qed.

Lemma load_defaults_loop_short (items : dict) :
  Forall valid_item items ->
  forall w,
    (length (replies (_unit w)) < length items)%nat ->
    InstinctModel.load_defaults_loop items w =
    (Raise TransportError,
     with_link w
       (sent (_unit w) ++
        map drive_cmd (firstn (S (length (replies (_unit w)))) items))
       []
       (dict_update (_cache w) (firstn (length (replies (_unit w))) items))).
Proof.
  induction 1 as [|[n v] items Hkv _ IH]; intros w Hlen.
  - simpl in Hlen. lia.
  - cbn [InstinctModel.load_defaults_loop]. unfold bind.
    pose proof (set_drive_run (n, v) w Hkv) as E. cbn [fst snd] in E.
    rewrite E. clear E.
    destruct (replies (_unit w)) as [|r rs].
    + reflexivity.
    + rewrite IH by (simpl in *; lia).
      cbn. now rewrite <- app_assoc.
Qed.

Lemma default_drives_valid : Forall valid_item InstinctModel.DEFAULT_DRIVES.
Proof.
  unfold InstinctModel.DEFAULT_DRIVES.
  repeat (apply Forall_cons;
          [split; [reflexivity|];
           split; [simpl; lia | split; vm_compute; discriminate]|]).
  apply Forall_nil.
Qed.

(** The values the six default weights go out as. *)
Lemma default_drive_values :
  map (fun kv => quantise (snd kv)) InstinctModel.DEFAULT_DRIVES =
  [0xb332; 0xd998; 0x6666; 0x7fff; 0xbfff; 0xe665].
Proof. vm_compute. reflexivity. Qed.

(** X9: [load_defaults] writes the six default drives in the order of the
    table.  With at least six replies pending it returns normally after
    exactly six [SET_DRIVE] commands, one record per default, and the cache
    holds the six weights.  With only [j < 6] replies it is not atomic: it
    raises [TransportError] after [j + 1] commands, the first [j] defaults
    being written and cached and the later ones never sent. *)
Theorem load_defaults_in_table_order (w : World) (j : nat) :
  length (replies (_unit w)) = j ->
  InstinctModel.load_defaults w =
  if (6 <=? j)%nat then
    (Ok tt,
     with_link w
       (sent (_unit w) ++ map drive_cmd InstinctModel.DEFAULT_DRIVES)
       (skipn 6 (replies (_unit w)))
       (dict_update (_cache w) InstinctModel.DEFAULT_DRIVES))
  else
    (Raise TransportError,
     with_link w
       (sent (_unit w) ++
        map drive_cmd (firstn (S j) InstinctModel.DEFAULT_DRIVES))
       []
       (dict_update (_cache w) (firstn j InstinctModel.DEFAULT_DRIVES))).
Proof.
  intros Hj. unfold InstinctModel.load_defaults.
  destruct (Nat.leb_spec 6 j) as [H|H].
  - rewrite load_defaults_loop_ok;
      [reflexivity | apply default_drives_valid | simpl; lia].
  - rewrite load_defaults_loop_short;
      [now rewrite Hj | apply default_drives_valid | simpl; lia].
Qed.

Lemma load_defaults_in_table_order_witness :
  fst (InstinctModel.load_defaults (fresh [[]; []])) = Raise TransportError /\
  map fst (_cache (snd (InstinctModel.load_defaults (fresh [[]; []])))) =
    [str_of_string "curiosity"; str_of_string "social"] /\
  length (wire (InstinctModel.load_defaults (fresh [[]; []]))) = 3%nat.
Proof.
  rewrite (load_defaults_in_table_order (fresh [[]; []]) 2 eq_refl).
  repeat split; reflexivity.
Defined.

Lemma load_loop_ok (items : dict) :
  Forall valid_item items ->
  forall w,
    (length items <= length (replies (_unit w)))%nat ->
    PersonalityEngine.load_loop items w =
    (Ok tt,
     with_link w (sent (_unit w) ++ map trait_cmd items)
       (skipn (length items) (replies (_unit w))) (_cache w)).
Proof.
  induction 1 as [|[n v] items Hkv _ IH]; intros w Hlen.
  - cbn. now rewrite app_nil_r, with_link_id.
  - cbn [PersonalityEngine.load_loop]. unfold bind.
    pose proof (set_run (n, v) w Hkv) as E. cbn [fst snd] in E.
    rewrite E. clear E.
    destruct (replies (_unit w)) as [|r rs]; [simpl in Hlen; lia|].
    rewrite IH by (simpl in *; lia).
    cbn. now rewrite <- app_assoc.
Qed.

(** X10: the loop of [load] is not atomic.  Entries are written with [set] in
    the order of the mapping; at the first value outside [0, 1] it raises
    [ValueError]: the entries before it have been sent (one [TRAIT_SET] each),
    that entry and all later ones have not.  When every entry is valid and the
    unit answers each command, all of them are sent and [load] returns. *)
Theorem load_stops_at_first_bad_value (good rest : dict) (trait : str)
  (value : Q) (w : World) :
  Forall valid_item good ->
  (value < 0 \/ 1 < value)%Q ->
  (length good <= length (replies (_unit w)))%nat ->
  PersonalityEngine.load_loop (good ++ (trait, value) :: rest) w =
    (Raise ValueError,
     with_link w (sent (_unit w) ++ map trait_cmd good)
       (skipn (length good) (replies (_unit w))) (_cache w)) /\
  PersonalityEngine.load_loop good w =
    (Ok tt,
     with_link w (sent (_unit w) ++ map trait_cmd good)
       (skipn (length good) (replies (_unit w))) (_cache w)).
Proof.
  intros Hgood Hbad Hlen. split; [|now apply load_loop_ok].
  revert w Hlen. induction Hgood as [|[n v] good Hkv _ IH]; intros w Hlen.
  - cbn [app PersonalityEngine.load_loop]. unfold bind, PersonalityEngine.set.
    rewrite (proj2 (in_unit_range_false value) Hbad). cbn.
    now rewrite app_nil_r, with_link_id.
  - cbn [app PersonalityEngine.load_loop]. unfold bind at 1.
    pose proof (set_run (n, v) w Hkv) as E. cbn [fst snd] in E.
    rewrite E. clear E.
    destruct (replies (_unit w)) as [|r rs]; [simpl in Hlen; lia|].
    rewrite IH by (simpl in *; lia).
    cbn. now rewrite <- app_assoc.
Qed.

Lemma load_stops_at_first_bad_value_witness :
  let data := [(str_of_string "bold", 0.5%Q); (str_of_string "vocal", 1.2%Q);
               (str_of_string "playful", 0.6%Q)] in
  fst (PersonalityEngine.load_loop data (fresh [[]; []; []])) =
    Raise ValueError /\
  wire (PersonalityEngine.load_loop data (fresh [[]; []; []])) =
    [trait_cmd (str_of_string "bold", 0.5%Q)].
Proof.
  intros data.
  destruct (load_stops_at_first_bad_value
              [(str_of_string "bold", 0.5%Q)]
              [(str_of_string "playful", 0.6%Q)]
              (str_of_string "vocal") 1.2 (fresh [[]; []; []])) as [H _].
  - repeat constructor; try discriminate; simpl; lia.
  - right. reflexivity.
  - simpl. lia.
  - unfold data. cbn [app] in H. rewrite H. split; reflexivity.
Defined.

(** * Memory store: trust, encode, recall *)





Section MemoryStoreMore.

Variable sha256 : bytes -> bytes.
Hypothesis sha256_length : forall m, length (sha256 m) = 32%nat.

(** X11: for a uid that can be UTF-8 encoded, whatever the unit answers,
    [get_trust] returns a value in [0, 1]; for a reply [b0 b1 ...] of two
    bytes or more it is [(256 * b0 + b1) / 65535].  It sends one [TRUST]
    command whose payload is the first 8 bytes of the SHA-256 digest of the
    encoded uid, and never touches the cache. *)
Theorem get_trust_reads_two_bytes (uid : str) (m raw : bytes)
  (rs : list bytes) (w : World) :
  utf8_encode uid = Ok m ->
  replies (_unit w) = raw :: rs ->
  exists val,
    fst (MemoryStore.get_trust sha256 uid w) = Ok val /\
    (0 <= val /\ val <= 1)%Q /\
    (forall b0 b1 rest, raw = b0 :: b1 :: rest ->
       val = (inject_Z (256 * byte_val b0 + byte_val b1) / 65535)%Q) /\
    wire (MemoryStore.get_trust sha256 uid w) =
      sent (_unit w) ++ [(MemoryStore.CMD_TRUST, slice (sha256 m) 0 8)] /\
    length (slice (sha256 m) 0 8) = 8%nat /\
    _cache (snd (MemoryStore.get_trust sha256 uid w)) = _cache w.
Proof.
  intros Hu Hr.
  unfold wire, MemoryStore.get_trust, MemoryStore._hash_uid, bind, lift,
    send_cmd.
  rewrite Hu, Hr.
  pose proof (length_slice (sha256 m) 0 8) as Hh. rewrite sha256_length in Hh.
  destruct (Nat.ltb_spec (length raw) 2) as [Hs|Hl].
  - exists 0%Q. cbn. split; [reflexivity|]. split; [split; discriminate|].
    split; [intros b0 b1 rest ->; simpl in Hs; lia|].
    split; [reflexivity|]. split; [exact Hh | reflexivity].
  - exists (decode_u16 raw). cbn. split; [reflexivity|].
    split; [apply decode_u16_range|].
    split.
    + intros b0 b1 rest ->. unfold decode_u16. rewrite slice_0.
      cbn [firstn]. unfold from_bytes. cbn [fold_left].
      replace ((0 * 256 + byte_val b0) * 256 + byte_val b1)
        with (256 * byte_val b0 + byte_val b1) by lia.
      reflexivity.
    + split; [reflexivity|]. split; [exact Hh | reflexivity].
Qed.



End MemoryStoreMore.

Lemma get_trust_reads_two_bytes_witness :
  fst (MemoryStore.get_trust example_digest (str_of_string "alice")
         (fresh [[Byte.xff; Byte.xff; Byte.x00]])) =
    Ok (inject_Z 65535 / 65535)%Q /\
  wire (MemoryStore.get_trust example_digest (str_of_string "alice")
          (fresh [[Byte.xff; Byte.xff; Byte.x00]])) =
    [(MemoryStore.CMD_TRUST,
      slice (example_digest (map byte_of_N (str_of_string "alice"))) 0 8)].
Proof.
  destruct (get_trust_reads_two_bytes example_digest length_example_digest
              (str_of_string "alice")
              (map byte_of_N (str_of_string "alice"))
              [Byte.xff; Byte.xff; Byte.x00] []
              (fresh [[Byte.xff; Byte.xff; Byte.x00]]) utf8_alice eq_refl)
    as (val & H1 & _ & H3 & H4 & _).
  split; [|exact H4].
  rewrite H1. f_equal. apply (H3 Byte.xff Byte.xff [Byte.x00] eq_refl).
Defined.



(** * [recall]: the request and the events *)

(** X14: [recall] sends its limit as two big-endian bytes: a limit below 0 or
    above 65535 raises [OverflowError] with nothing sent; otherwise exactly one
    [RECALL] command goes out, its 2-byte payload reads back as the limit, and
    the cache is not touched. *)
Theorem recall_limit_field (limit : Z) (w : World) :
  (limit < 0 \/ 65536 <= limit ->
   MemoryStore.recall limit w = (Raise OverflowError, w)) /\
  (0 <= limit < 65536 ->
   exists payload,
     wire (MemoryStore.recall limit w) =
       sent (_unit w) ++ [(MemoryStore.CMD_RECALL, payload)] /\
     length payload = 2%nat /\
     from_bytes payload = limit /\
     _cache (snd (MemoryStore.recall limit w)) = _cache w).
Proof.
  split; intros Hl; unfold MemoryStore.recall, bind at 1, lift.
  - now rewrite to_bytes_overflow
      by (change (256 ^ Z.of_nat 2) with 65536; lia).
  - rewrite to_bytes_ok by (change (256 ^ Z.of_nat 2) with 65536; lia).
    exists (be_digits 2 limit).
    split; [now apply wire_bind_send|].
    split; [apply length_be_digits|].
    split; [apply from_bytes_to_bytes; change (256 ^ Z.of_nat 2) with 65536; lia|].
    unfold bind, send_cmd, ret. now destruct (replies (_unit w)).
Qed.

Lemma last_map_default {A B} (f : A -> B) (l : list A) (d : A) :
  last (map f l) (f d) = f (last l d).
Proof.
  induction l as [|x t IH]; [reflexivity|].
  destruct t as [|y t']; [reflexivity|]. exact IH.
Qed.

Lemma episodic_wellformed (c : bytes) : wellformed_event (episodic c).
Proof.
  unfold wellformed_event, episodic.
  cbn [MemoryStore.event MemoryStore.ts MemoryStore.valence].
  split; [|split; [|split]].
  - unfold decode_ascii_replace. rewrite length_map.
    pose proof (length_rstrip (slice c 0 24)) as H1.
    pose proof (length_slice_le c 0 24) as H2.
    exact (Nat.le_trans _ _ _ H1 H2).
  - unfold decode_ascii_replace.
    change 1%N with ((fun x => if is_ascii_byte x then Byte.to_N x
                               else REPLACEMENT_CHARACTER) Byte.x01).
    rewrite last_map_default. cbv beta.
    destruct (is_ascii_byte (last (rstrip (slice c 0 24)) Byte.x01));
      [|discriminate].
    intros H. apply to_N_zero in H. now apply rstrip_last in H.
  - pose proof (from_bytes_bound (slice c 34 38)) as Hb.
    pose proof (length_slice_le c 34 4) as Hl.
    change (34 + 4)%nat with 38%nat in Hl.
    assert (256 ^ Z.of_nat (length (slice c 34 38)) <= 256 ^ 4)
      by (apply Z.pow_le_mono_r; lia).
    change (2 ^ 32) with (256 ^ 4). lia.
  - apply (round4_range _ (-1) 1).
    destruct (unit_of_u16 (from_bytes (slice c 32 34))) as [H0 H1].
    { apply from_bytes_u16. apply (length_slice_le c 32 2). }
    change (inject_Z (-1)) with (-1)%Q. change (inject_Z 1) with 1%Q.
    split; lra.
Qed.

(** X15: the events [recall] returns are well formed whatever the reply holds:
    a name of at most 24 characters that does not end in NUL, a timestamp in
    [0, 2^32) and a valence in [-1, 1].  Their number is
    [floor(len(reply) / 38)]: the host does not cut the list down to [limit],
    so two calls that differ only in the limit return the same events for the
    same reply. *)
Theorem recall_events_wellformed (limit limit' : Z) (raw : bytes)
  (rs : list bytes) (w : World) :
  0 <= limit < 65536 ->
  0 <= limit' < 65536 ->
  replies (_unit w) = raw :: rs ->
  exists events,
    fst (MemoryStore.recall limit w) = Ok events /\
    fst (MemoryStore.recall limit' w) = Ok events /\
    length events = (length raw / 38)%nat /\
    Forall wellformed_event events.
Proof.
  intros Hl Hl' Hr. exists (map episodic (full_chunks 38 raw)).
  split; [now apply (recall_reply limit raw rs w)|].
  split; [now apply (recall_reply limit' raw rs w)|].
  split; [now rewrite length_map, length_full_chunks|].
  apply Forall_map, Forall_forall. intros c _. apply episodic_wellformed.
Qed.

Lemma recall_events_wellformed_witness :
  let buf := repeat Byte.xff (2 * 38 + 5) in
  exists events,
    fst (MemoryStore.recall 1 (fresh [buf])) = Ok events /\
    length events = 2%nat /\
    Forall wellformed_event events.
Proof.
  intros buf.
  destruct (recall_events_wellformed 1 16 buf [] (fresh [buf])
              ltac:(lia) ltac:(lia) eq_refl) as (events & H1 & _ & H3 & H4).
  exists events. split; [exact H1|]. split; [exact H3 | exact H4].
Defined.

Lemma recall_limit_field_witness :
  MemoryStore.recall 70000 (fresh [[]]) = (Raise OverflowError, fresh [[]]) /\
  exists payload,
    wire (MemoryStore.recall 16 (fresh [[]])) =
      [(MemoryStore.CMD_RECALL, payload)] /\
    from_bytes payload = 16.
Proof.
  split.
  - apply (proj1 (recall_limit_field 70000 (fresh [[]]))). right. lia.
  - destruct (proj2 (recall_limit_field 16 (fresh [[]])) ltac:(lia))
      as (payload & H1 & _ & H3 & _).
    exists payload. split; [exact H1 | exact H3].
Defined.
